(** * Cookie parameter validation (parameters/cookie_parameters.go)

    A shallow embedding of [paramValidator.ValidateCookieParams] and of the
    Go library functions it calls, followed by the properties of the
    specification that concern it.

    Conventions.
    - A Go [string] is a sequence of bytes: Rocq's [string] (a list of
      [ascii]).
    - A Go pointer or slice that may be [nil] is an [option]; dereferencing
      [nil] panics, which the [outcome] type records.
    - Functions of this repository that live in other files (the path
      resolver, the parameter extractor, the schema validator, the error
      constructors, [ValidateCookieArray]) are the fields of the class
      [Collaborators]: the validator is verified for every implementation
      of them. *)

From Stdlib Require Import String Ascii List ZArith Bool Lia.
Import ListNotations.
Open Scope string_scope.
Open Scope Z_scope.

(** ** Bytes *)

Definition code (c : ascii) : Z := Z.of_N (N_of_ascii c).

Definition between (lo hi : Z) (c : ascii) : bool :=
  (lo <=? code c) && (code c <=? hi).

Definition isDigit (c : ascii) : bool := between 48 57 c.

(** Go's [nil]-able pointers and slices. *)
Definition ptr (A : Type) : Type := option A.
Definition slice (A : Type) : Type := option (list A).

Definition len {A : Type} (s : slice A) : nat :=
  match s with
  | None => 0%nat
  | Some l => length l
  end.

(** ** package strings *)
Module strings.

Definition isUpper (c : ascii) : bool := between 65 90 c.

Definition lowerByte (c : ascii) : ascii :=
  if isUpper c then ascii_of_N (N_of_ascii c + 32) else c.

Fixpoint isASCII (s : string) : bool :=
  match s with
  | EmptyString => true
  | String c r => (code c <? 128) && isASCII r
  end.

Fixpoint mapBytes (f : ascii -> ascii) (s : string) : string :=
  match s with
  | EmptyString => EmptyString
  | String c r => String (f c) (mapBytes f r)
  end.

(** [strings.ToLower]: a string of ASCII bytes is lowered byte by byte;
    any other string goes through [Map(unicode.ToLower, s)], which is the
    argument [unicodeLower] (the Unicode case tables are not modelled). *)
Definition ToLower (unicodeLower : string -> string) (s : string) : string :=
  if isASCII s then mapBytes lowerByte s else unicodeLower s.

(** White space as [unicode.IsSpace] has it, read off the UTF-8 encoding:
    the six ASCII spaces, U+0085 and U+00A0 (two bytes), and U+1680,
    U+2000..U+200A, U+2028, U+2029, U+202F, U+205F, U+3000 (three bytes).
    UTF-8 decoding accepts shortest encodings only, so a rune is one of
    these exactly when its bytes are the ones listed. *)
Definition isSpace1 (a : ascii) : bool :=
  between 9 13 a || (code a =? 32).

Definition isSpace2 (a b : ascii) : bool :=
  (code a =? 194) && ((code b =? 133) || (code b =? 160)).

Definition isSpace3 (a b c : ascii) : bool :=
  ((code a =? 225) && (code b =? 154) && (code c =? 128))
  || ((code a =? 226) && (code b =? 128)
      && (between 128 138 c || (code c =? 168) || (code c =? 169) || (code c =? 175)))
  || ((code a =? 226) && (code b =? 129) && (code c =? 159))
  || ((code a =? 227) && (code b =? 128) && (code c =? 128)).

(** [TrimLeftFunc(s, unicode.IsSpace)]. *)
Fixpoint trimLeft (s : string) : string :=
  match s with
  | EmptyString => EmptyString
  | String a r1 =>
      if isSpace1 a then trimLeft r1
      else match r1 with
           | String b r2 =>
               if isSpace2 a b then trimLeft r2
               else match r2 with
                    | String c r3 => if isSpace3 a b c then trimLeft r3 else s
                    | EmptyString => s
                    end
           | EmptyString => s
           end
  end.

Fixpoint rev (s : string) : string :=
  match s with
  | EmptyString => EmptyString
  | String c r => rev r ++ String c EmptyString
  end.

(** The same on a reversed string: the last rune of the original comes
    first, its bytes in reverse order ([DecodeLastRuneInString] walks back
    to the nearest start byte, which is where these encodings start). *)
Fixpoint trimLeftRev (s : string) : string :=
  match s with
  | EmptyString => EmptyString
  | String c r1 =>
      if isSpace1 c then trimLeftRev r1
      else match r1 with
           | String b r2 =>
               if isSpace2 b c then trimLeftRev r2
               else match r2 with
                    | String a r3 => if isSpace3 a b c then trimLeftRev r3 else s
                    | EmptyString => s
                    end
           | EmptyString => s
           end
  end.

Definition trimRight (s : string) : string := rev (trimLeftRev (rev s)).

(** [strings.TrimSpace]: all leading and trailing white space removed. *)
Definition TrimSpace (s : string) : string := trimRight (trimLeft s).

(** [strings.Split(s, ",")]: the pieces between commas; an empty string
    gives one empty piece. *)
Fixpoint splitOn (sep : ascii) (s : string) : list string :=
  match s with
  | EmptyString => [EmptyString]
  | String c r =>
      if Ascii.eqb c sep then EmptyString :: splitOn sep r
      else match splitOn sep r with
           | h :: t => String c h :: t
           | [] => [String c EmptyString]
           end
  end.

End strings.

(** ** package strconv *)
Module strconv.

(** The two errors of [strconv.NumError]. *)
Inductive NumError : Type := ErrSyntax | ErrRange.

(** A Go [error]: [None] is [nil]. *)
Definition error : Type := option NumError.

(** [strconv.ParseBool]: twelve spellings are accepted, nothing else. *)
Definition ParseBool (str : string) : bool * error :=
  if existsb (String.eqb str) ["1"; "t"; "T"; "true"; "TRUE"; "True"] then (true, None)
  else if existsb (String.eqb str) ["0"; "f"; "F"; "false"; "FALSE"; "False"] then (false, None)
  else (false, Some ErrSyntax).

(** [lower(c)] of strconv: [c | ('x' - 'X')]. *)
Definition lower (c : ascii) : Z := Z.lor (code c) 32.

Definition isHexLetter (c : ascii) : bool := (97 <=? lower c) && (lower c <=? 102).

Fixpoint commonPrefixLenIgnoreCase (s prefix : string) : nat :=
  match s, prefix with
  | String c s', String d prefix' =>
      if Ascii.eqb (strings.lowerByte c) d
      then S (commonPrefixLenIgnoreCase s' prefix')
      else 0%nat
  | _, _ => 0%nat
  end.

Definition infinityLen (s : string) : option nat :=
  let n := commonPrefixLenIgnoreCase s "infinity" in
  let n := if ((3 <? n) && (n <? 8))%nat then 3%nat else n in
  if ((n =? 3) || (n =? 8))%nat then Some n else None.

(** [special]: the number of bytes of a leading "inf", "infinity" (with an
    optional sign) or "nan", in any case. *)
Definition special (s : string) : option nat :=
  match s with
  | EmptyString => None
  | String c r =>
      if Ascii.eqb c "+" || Ascii.eqb c "-" then
        match infinityLen r with
        | Some n => Some (S n)
        | None => None
        end
      else if Ascii.eqb c "i" || Ascii.eqb c "I" then infinityLen s
      else if Ascii.eqb c "n" || Ascii.eqb c "N" then
        if (commonPrefixLenIgnoreCase s "nan" =? 3)%nat then Some 3%nat else None
      else None
  end.

(** The variables of [readFloat]'s digit loop.  Go keeps the first 19
    digits (16 in hexadecimal) in a [uint64] and sets [trunc] when it drops
    a non-zero one; [mantissa] here keeps every digit, so that
    [mantissa * base ^ exp] is the exact value of the literal. *)
Record scan : Type := mkScan {
  sawdot : bool;
  sawdigits : bool;
  underscores : bool;
  nd : Z;
  dp : Z;
  mantissa : Z
}.

Definition scan0 : scan := mkScan false false false 0 0 0.

Fixpoint scanDigits (hex : bool) (s : string) (st : scan) : scan * string :=
  match s with
  | EmptyString => (st, s)
  | String c r =>
      if Ascii.eqb c "_" then
        scanDigits hex r
          (mkScan (sawdot st) (sawdigits st) true (nd st) (dp st) (mantissa st))
      else if Ascii.eqb c "." then
        if sawdot st then (st, s)
        else scanDigits hex r
               (mkScan true (sawdigits st) (underscores st) (nd st) (nd st) (mantissa st))
      else if isDigit c then
        if Ascii.eqb c "0" && (nd st =? 0) then
          scanDigits hex r
            (mkScan (sawdot st) true (underscores st) (nd st) (dp st - 1) (mantissa st))
        else
          scanDigits hex r
            (mkScan (sawdot st) true (underscores st) (nd st + 1) (dp st)
               (mantissa st * (if hex then 16 else 10) + (code c - 48)))
      else if hex && isHexLetter c then
        scanDigits hex r
          (mkScan (sawdot st) true (underscores st) (nd st + 1) (dp st)
             (mantissa st * 16 + (lower c - 97 + 10)))
      else (st, s)
  end.

(** The exponent's digits: [e] stops growing once it has reached 10000. *)
Fixpoint scanExp (s : string) (e : Z) (us : bool) : Z * bool * string :=
  match s with
  | EmptyString => (e, us, s)
  | String c r =>
      if isDigit c then
        scanExp r (if e <? 10000 then e * 10 + (code c - 48) else e) us
      else if Ascii.eqb c "_" then scanExp r e true
      else (e, us, s)
  end.

Inductive saw : Type := SawStart | SawDigit | SawUnderscore | SawOther.

Fixpoint underscoreLoop (hex : bool) (s : string) (last : saw) : bool :=
  match s with
  | EmptyString => match last with SawUnderscore => false | _ => true end
  | String c r =>
      if isDigit c || (hex && isHexLetter c) then underscoreLoop hex r SawDigit
      else if Ascii.eqb c "_" then
        match last with
        | SawDigit => underscoreLoop hex r SawUnderscore
        | _ => false
        end
      else match last with
           | SawUnderscore => false
           | _ => underscoreLoop hex r SawOther
           end
  end.

(** [underscoreOK]: underscores stand between digits, or between a base
    prefix and a digit. *)
Definition underscoreOK (s : string) : bool :=
  let s :=
    match s with
    | String c r => if Ascii.eqb c "-" || Ascii.eqb c "+" then r else s
    | EmptyString => s
    end in
  match s with
  | String c0 (String c1 r) =>
      if Ascii.eqb c0 "0" && ((lower c1 =? 98) || (lower c1 =? 111) || (lower c1 =? 120))
      then underscoreLoop (lower c1 =? 120) r SawDigit
      else underscoreLoop false s SawStart
  | _ => underscoreLoop false s SawStart
  end.

(** The base prefix: [i+2 < len(s) && s[i] == '0' && lower(s[i+1]) == 'x']. *)
Definition hexPrefix (s : string) : bool * string :=
  match s with
  | String a (String b (String c r)) =>
      if Ascii.eqb a "0" && (lower b =? 120) then (true, String c r) else (false, s)
  | _ => (false, s)
  end.

(** The optional exponent, which moves the decimal point [dp]; a
    hexadecimal literal must have one.  [None] when [readFloat] returns
    with [ok] false. *)
Definition readExponent (hex : bool) (dp1 : Z) (us : bool) (s : string)
  : option (Z * bool * string) :=
  let noExponent := if hex then None else Some (dp1, us, s) in
  match s with
  | String c r =>
      if lower c =? (if hex then 112 else 101) then
        match r with
        | EmptyString => None
        | String sg r' =>
            let '(esign, s4) :=
              if Ascii.eqb sg "+" then (1, r')
              else if Ascii.eqb sg "-" then (-1, r')
              else (1, r) in
            match s4 with
            | String d _ =>
                if isDigit d then
                  let '(e, us', rest) := scanExp s4 0 us in
                  Some (dp1 + e * esign, us', rest)
                else None
            | EmptyString => None
            end
        end
      else noExponent
  | EmptyString => noExponent
  end.

(** [readFloat]: the literal's digits as an integer, its exponent (of 10,
    or of 2 for a hexadecimal literal), whether it is hexadecimal, and the
    bytes left unread; [None] when [ok] is false. *)
Definition readFloat (s : string) : option (Z * Z * bool * string) :=
  match s with
  | EmptyString => None
  | String c0 r0 =>
      let s1 := if Ascii.eqb c0 "+" || Ascii.eqb c0 "-" then r0 else s in
      let '(hex, s2) := hexPrefix s1 in
      let '(st, s3) := scanDigits hex s2 scan0 in
      if negb (sawdigits st) then None
      else
        let dp0 := if sawdot st then dp st else nd st in
        let dp1 := if hex then dp0 * 4 else dp0 in
        let ndMant := if hex then nd st * 4 else nd st in
        match readExponent hex dp1 (underscores st) s3 with
        | None => None
        | Some (dp2, us, rest) =>
            let exp := if mantissa st =? 0 then 0 else dp2 - ndMant in
            let read := substring 0 (String.length s - String.length rest) s in
            if us && negb (underscoreOK read) then None
            else Some (mantissa st, exp, hex, rest)
        end
  end.

(** The least magnitude that rounds to infinity: half an ulp above the
    largest finite float ([2^1024 - 2^970] for a float64). *)
Definition halfwayToInf (bitSize : Z) : Z :=
  if bitSize =? 32 then 2 ^ 128 - 2 ^ 103 else 2 ^ 1024 - 2 ^ 970.

(** [mantissa * base ^ exp] rounds to infinity. *)
Definition exceeds (bitSize : Z) (hex : bool) (mant exp : Z) : bool :=
  let b := if hex then 2 else 10 in
  halfwayToInf bitSize * b ^ Z.max 0 (- exp) <=? mant * b ^ Z.max 0 exp.

(** A [decimal], as far as its size goes: the digits kept in [d] (at most
    800 of them, the length of the array) as an integer, their number [nd]
    and the decimal point [dp].  The fields [neg] and [trunc] are left out:
    the sign does not bear on the error, and [trunc] decides the rounding
    of a value halfway between two floats only, which at the threshold is
    rounded up either way. *)
Module decimal.
Record t : Type := mk { d : Z; nd : Z; dp : Z }.
End decimal.

(** The digit loop of [decimal.set]: leading zeros move the point, a digit
    after the 800th is dropped, a second point ends the call with [ok]
    false ([None]). *)
Fixpoint setDigits (s : string) (sawdot sawdigits : bool) (b : decimal.t)
  : option (bool * bool * decimal.t * string) :=
  match s with
  | EmptyString => Some (sawdot, sawdigits, b, s)
  | String c r =>
      if Ascii.eqb c "_" then setDigits r sawdot sawdigits b
      else if Ascii.eqb c "." then
        if sawdot then None
        else setDigits r true sawdigits
               (decimal.mk (decimal.d b) (decimal.nd b) (decimal.nd b))
      else if isDigit c then
        if Ascii.eqb c "0" && (decimal.nd b =? 0) then
          setDigits r sawdot true
            (decimal.mk (decimal.d b) (decimal.nd b) (decimal.dp b - 1))
        else if decimal.nd b <? 800 then
          setDigits r sawdot true
            (decimal.mk (decimal.d b * 10 + (code c - 48)) (decimal.nd b + 1) (decimal.dp b))
        else setDigits r sawdot true b
      else Some (sawdot, sawdigits, b, s)
  end.

(** [decimal.set]: an optional sign, the digits, and an optional exponent
    that moves the point (the exponent is read by the statements
    [readFloat] has for a decimal literal); [None] when [ok] is false. *)
Definition set (s : string) : option decimal.t :=
  match s with
  | EmptyString => None
  | String c r =>
      let s1 := if Ascii.eqb c "+" || Ascii.eqb c "-" then r else s in
      match setDigits s1 false false (decimal.mk 0 0 0) with
      | None => None
      | Some (sawdot, sawdigits, b, s2) =>
          if negb sawdigits then None
          else
            let dp0 := if sawdot then decimal.dp b else decimal.nd b in
            match readExponent false dp0 false s2 with
            | Some (dp1, _, EmptyString) => Some (decimal.mk (decimal.d b) (decimal.nd b) dp1)
            | _ => None
            end
      end
  end.

(** [decimal.floatBits] reports an overflow: [0.d * 10 ^ dp] rounds to
    infinity. *)
Definition overflows (bitSize : Z) (b : decimal.t) : bool :=
  exceeds bitSize false (decimal.d b) (decimal.dp b - decimal.nd b).

(** [strconv.ParseFloat]'s error (the float itself, which the validator
    discards, is not modelled).  A literal that is read to its end fails
    only with a range error.  A hexadecimal literal is rounded by [atofHex]
    from the digits [readFloat] has read.  For a decimal literal the
    shortcuts ([atof64exact], [eiselLemire64]) return finite, correctly
    rounded floats only and give way where the literal rounds to infinity,
    so a range error is that of the fallback: [decimal.set] reads the
    literal again, keeping 800 digits, and [floatBits] rounds what it
    kept. *)
Definition ParseFloat (s : string) (bitSize : Z) : error :=
  match special s with
  | Some n => if (n =? String.length s)%nat then None else Some ErrSyntax
  | None =>
      match readFloat s with
      | None => Some ErrSyntax
      | Some (mant, exp, hex, rest) =>
          match rest with
          | String _ _ => Some ErrSyntax
          | EmptyString =>
              if hex then
                if exceeds bitSize hex mant exp then Some ErrRange else None
              else
                match set s with
                | None => Some ErrSyntax
                | Some b => if overflows bitSize b then Some ErrRange else None
                end
          end
      end
  end.

End strconv.

(** [ParseFloat(s, 64)] returns no error. *)
Definition parses (s : string) : bool :=
  match strconv.ParseFloat s 64 with
  | None => true
  | Some _ => false
  end.

(** ** The data the validator reads *)

(** libopenapi's [base.Schema] with the fields the validator reads, the
    [DynamicValue] that holds [Items] (a schema when [N] is 0, a boolean
    when it is 1) and the [SchemaProxy] whose [Schema()] yields a pointer.
    The entries of [Enum] are the strings of the specification's data
    model ("allowed string values"): line 91 compares them with a string. *)
Module base.

Inductive Schema : Type :=
  mkSchema (Type_ : list string) (Enum : slice string) (Items : ptr DynamicValue)
with DynamicValue : Type :=
  mkDynamicValue (N : Z) (A : ptr SchemaProxy) (B : bool)
with SchemaProxy : Type :=
  mkSchemaProxy (rendered : ptr Schema).

Definition Type_ (s : Schema) : list string :=
  match s with mkSchema t _ _ => t end.

Definition Enum (s : Schema) : slice string :=
  match s with mkSchema _ e _ => e end.

Definition Items (s : Schema) : ptr DynamicValue :=
  match s with mkSchema _ _ i => i end.

Definition N (d : DynamicValue) : Z :=
  match d with mkDynamicValue n _ _ => n end.

Definition A (d : DynamicValue) : ptr SchemaProxy :=
  match d with mkDynamicValue _ a _ => a end.

(** [func (d *DynamicValue[A, B]) IsA() bool { return d.N == 0 }] *)
Definition IsA (d : DynamicValue) : bool := N d =? 0.

(** [SchemaProxy.Schema()]: the schema the proxy renders, or [nil]. *)
Definition Schema_ (p : SchemaProxy) : ptr Schema :=
  match p with mkSchemaProxy s => s end.

End base.

(** libopenapi's [v3.Parameter] (a keyword of Rocq, hence the underscore);
    [IsExploded] is what [p.IsExploded()] returns. *)
Module v3.

Record Parameter_ : Type := mkParameter {
  Name : string;
  In : string;
  Schema : ptr base.SchemaProxy;
  IsExploded : bool
}.

End v3.

(** [net/http]: a request with the cookies [request.Cookies()] returns. *)
Module http.

Record Cookie : Type := mkCookie {
  Name : string;
  Value : string
}.

Record Request : Type := mkRequest {
  Method : string;
  URL : string;
  Cookies : list Cookie
}.

End http.

(** Modelled from the spec: the constants of this repository's [helpers]
    package, which is not among the sources.  The specification's glossary
    names the type tags (integer, number, boolean, object, array, string)
    and the parameter location (cookie). *)
Module helpers.

Definition Integer : string := "integer".
Definition Number : string := "number".
Definition Boolean : string := "boolean".
Definition Object : string := "object".
Definition Array : string := "array".
Definition String : string := "string".
Definition Cookie : string := "cookie".

End helpers.

(** ** Panics *)

(** A Go call returns or panics. *)
Inductive outcome (T : Type) : Type :=
| Returned (t : T)
| Panicked.

Arguments Returned {T} t.
Arguments Panicked {T}.

Definition bind {T U : Type} (m : outcome T) (k : T -> outcome U) : outcome U :=
  match m with
  | Returned t => k t
  | Panicked => Panicked
  end.

Notation "x <- m ;; k" := (bind m (fun x => k))
  (at level 61, m at next level, right associativity).

(** Reading a field through a pointer: a [nil] pointer panics. *)
Definition deref {T : Type} (p : ptr T) : outcome T :=
  match p with
  | Some t => Returned t
  | None => Panicked
  end.

(** [for _, x := range l { ... }] over a body that updates [s] and may
    panic. *)
Fixpoint forEach {T S : Type} (l : list T) (s : S) (body : S -> T -> outcome S)
  : outcome S :=
  match l with
  | [] => Returned s
  | x :: l' => s' <- body s x ;; forEach l' s' body
  end.

(** ** The rest of the repository *)

(** What [ValidateCookieParams] calls in the repository's other packages
    and files, and [unicodeLower], the path [strings.ToLower] takes for a
    value that is not ASCII.  They are assumed to return without panicking
    and to leave the request and the validator alone. *)
Class Collaborators : Type := {
  Document : Type;
  PathItem : Type;
  ValidationError : Type;
  EncodedObject : Type;
  (* paths.FindPath (its third result, the matched path, is discarded) *)
  FindPath : http.Request -> Document -> ptr PathItem * slice ValidationError;
  (* helpers.ExtractParamsForOperation *)
  ExtractParamsForOperation : http.Request -> PathItem -> list v3.Parameter_;
  (* helpers.ConstructMapFromCSV *)
  ConstructMapFromCSV : string -> EncodedObject;
  (* schemas.ValidateParameterSchema *)
  ValidateParameterSchema :
    ptr base.Schema -> EncodedObject -> string -> string -> string -> string ->
    string -> string -> list ValidationError;
  (* parameters.ValidateCookieArray *)
  ValidateCookieArray : ptr base.Schema -> v3.Parameter_ -> string -> list ValidationError;
  (* errors.InvalidCookieParamNumber, IncorrectCookieParamBool, IncorrectCookieParamEnum *)
  InvalidCookieParamNumber : v3.Parameter_ -> string -> ptr base.Schema -> ValidationError;
  IncorrectCookieParamBool : v3.Parameter_ -> string -> ptr base.Schema -> ValidationError;
  IncorrectCookieParamEnum : v3.Parameter_ -> string -> ptr base.Schema -> ValidationError;
  (* helpers.ParameterValidation, helpers.ParameterValidationQuery *)
  ParameterValidation : string;
  ParameterValidationQuery : string;
  unicodeLower : string -> string
}.

(** ** package parameters *)
Section Validator.

Context {C : Collaborators}.

(** The validator: the document it validates against and the errors it
    keeps. *)
Record paramValidator : Type := mkParamValidator {
  document : Document;
  errors : slice ValidationError
}.

Definition ToLower (s : string) : string := strings.ToLower unicodeLower s.

(** The loop over [sch.Enum] with its [break]. *)
Fixpoint matchFound (value : string) (enum : list string) : bool :=
  match enum with
  | [] => false
  | enumVal :: enum' =>
      if String.eqb (strings.TrimSpace value) enumVal then true
      else matchFound value enum'
  end.

(** The [switch ty] of lines 44-101, for one declared type. *)
Definition typeCase (p : v3.Parameter_) (sch : ptr base.Schema) (cookie : http.Cookie)
  (validationErrors : list ValidationError) (ty : string)
  : outcome (list ValidationError) :=
  if String.eqb ty helpers.Integer || String.eqb ty helpers.Number then
    match strconv.ParseFloat (http.Value cookie) 64 with
    | Some _ =>
        Returned (validationErrors ++
          [InvalidCookieParamNumber p (ToLower (http.Value cookie)) sch])%list
    | None => Returned validationErrors
    end
  else if String.eqb ty helpers.Boolean then
    match strconv.ParseBool (http.Value cookie) with
    | (_, Some _) =>
        Returned (validationErrors ++
          [IncorrectCookieParamBool p (ToLower (http.Value cookie)) sch])%list
    | (_, None) => Returned validationErrors
    end
  else if String.eqb ty helpers.Object then
    if negb (v3.IsExploded p) then
      let encodedObj := ConstructMapFromCSV (http.Value cookie) in
      match sch with
      | Some _ =>
          Returned (validationErrors ++
            ValidateParameterSchema sch encodedObj EmptyString
              "Cookie parameter" "The cookie parameter" (v3.Name p)
              ParameterValidation ParameterValidationQuery)%list
      | None => Returned validationErrors
      end
    else Returned validationErrors
  else if String.eqb ty helpers.Array then
    if negb (v3.IsExploded p) then
      s <- deref sch ;;
      items <- deref (base.Items s) ;;
      if base.IsA items then
        Returned (validationErrors ++ ValidateCookieArray sch p (http.Value cookie))%list
      else Returned validationErrors
    else Returned validationErrors
  else if String.eqb ty helpers.String then
    s <- deref sch ;;
    match base.Enum s with
    | Some enum =>
        if negb (matchFound (http.Value cookie) enum) then
          Returned (validationErrors ++
            [IncorrectCookieParamEnum p (ToLower (http.Value cookie)) sch])%list
        else Returned validationErrors
    | None => Returned validationErrors
    end
  else Returned validationErrors.

(** Lines 35-103: one cookie of the request against one parameter. *)
Definition cookieCase (p : v3.Parameter_) (validationErrors : list ValidationError)
  (cookie : http.Cookie) : outcome (list ValidationError) :=
  if String.eqb (http.Name cookie) (v3.Name p) then
    let sch :=
      match v3.Schema p with
      | Some proxy => base.Schema_ proxy
      | None => None
      end in
    s <- deref sch ;;
    let pType := base.Type_ s in
    forEach pType validationErrors (typeCase p sch cookie)
  else Returned validationErrors.

(** Lines 33-105: one parameter of the operation. *)
Definition paramCase (request : http.Request) (validationErrors : list ValidationError)
  (p : v3.Parameter_) : outcome (list ValidationError) :=
  if String.eqb (v3.In p) helpers.Cookie then
    forEach (http.Cookies request) validationErrors (cookieCase p)
  else Returned validationErrors.

(** Lines 107-110: what is returned once the violations are collected. *)
Definition finish (validationErrors : list ValidationError)
  : bool * slice ValidationError :=
  if (0 <? length validationErrors)%nat
  then (false, Some validationErrors)
  else (true, None).

(** [ValidateCookieParams]: the validator after the call, and what the
    call returned.  The first branch is the one where [pathItem == nil ||
    errs != nil] is false. *)
Definition ValidateCookieParams (v : paramValidator) (request : http.Request)
  : paramValidator * outcome (bool * slice ValidationError) :=
  match FindPath request (document v) with
  | (Some pathItem, None) =>
      let params := ExtractParamsForOperation request pathItem in
      (v,
       validationErrors <- forEach params [] (paramCase request) ;;
       Returned (finish validationErrors))
  | (_, errs) =>
      (mkParamValidator (document v) errs, Returned (false, errs))
  end.

End Validator.

(** ** The checks of a call, listed *)
Section Checks.

Context {C : Collaborators}.

(** The outcomes of a list of checks put together: the violations in
    order, or a panic when one of the checks panics. *)
Fixpoint joinAll {T : Type} (l : list (outcome (list T))) : outcome (list T) :=
  match l with
  | [] => Returned []
  | m :: l' => x <- m ;; xs <- joinAll l' ;; Returned (x ++ xs)%list
  end.

(** The schema a parameter declares (lines 37-40). *)
Definition paramSchema (p : v3.Parameter_) : ptr base.Schema :=
  match v3.Schema p with
  | Some proxy => base.Schema_ proxy
  | None => None
  end.

(** The violations one type tag adds for one cookie. *)
Definition tagErrors (p : v3.Parameter_) (sch : ptr base.Schema) (cookie : http.Cookie)
  (ty : string) : outcome (list ValidationError) :=
  typeCase p sch cookie [] ty.

(** The checks of one cookie: one per declared type tag, in schema order;
    reading the type list of a [nil] schema panics. *)
Definition tagChecks (p : v3.Parameter_) (cookie : http.Cookie)
  : list (outcome (list ValidationError)) :=
  match paramSchema p with
  | Some s => map (tagErrors p (paramSchema p) cookie) (base.Type_ s)
  | None => [Panicked]
  end.

(** The violations of one cookie against the whole type list. *)
Definition cookieErrors (p : v3.Parameter_) (cookie : http.Cookie)
  : outcome (list ValidationError) :=
  joinAll (tagChecks p cookie).

(** The cookies of the request that carry a parameter's name, and the
    parameters of an operation that are cookie parameters. *)
Definition matching (p : v3.Parameter_) (cookies : list http.Cookie) : list http.Cookie :=
  filter (fun cookie => String.eqb (http.Name cookie) (v3.Name p)) cookies.

Definition cookieParams (params : list v3.Parameter_) : list v3.Parameter_ :=
  filter (fun p => String.eqb (v3.In p) helpers.Cookie) params.

(** Every check of a call: parameter by parameter, cookie by cookie. *)
Definition checks (params : list v3.Parameter_) (cookies : list http.Cookie)
  : list (outcome (list ValidationError)) :=
  flat_map (fun p => map (cookieErrors p) (matching p cookies)) (cookieParams params).


(** The contract of the path resolver: when it fails (no path item, or
    errors), it reports at least one violation. *)
Definition resolverReports : Prop :=
  forall (request : http.Request) (doc : Document) pathItem errs,
    FindPath request doc = (pathItem, errs) ->
    pathItem = None \/ errs <> None ->
    (0 < len errs)%nat.

(** The tags whose check is one test of the raw value. *)
Definition scalarTag (ty : string) : bool :=
  String.eqb ty helpers.Integer || String.eqb ty helpers.Number
  || String.eqb ty helpers.Boolean || String.eqb ty helpers.String.

End Checks.

(** ** The specification's pattern of numbers

    [^-?\d+(\.\d+)?([eE][-+]?\d+)?$], spelled out: a string is a sign, an
    integer part, a fraction and an exponent, the first and the last two
    possibly empty. *)

Fixpoint allDigits (s : string) : bool :=
  match s with
  | EmptyString => true
  | String c r => isDigit c && allDigits r
  end.

(** [\d+] *)
Definition digits (s : string) : Prop := s <> EmptyString /\ allDigits s = true.

(** [(\.\d+)?] *)
Definition fraction (frac : string) : Prop :=
  frac = EmptyString \/ exists f, frac = "." ++ f /\ digits f.

(** [([eE][-+]?\d+)?] *)
Definition exponent (exp : string) : Prop :=
  exp = EmptyString
  \/ exists e sg ds,
       exp = e ++ sg ++ ds
       /\ (e = "e" \/ e = "E")
       /\ (sg = EmptyString \/ sg = "-" \/ sg = "+")
       /\ digits ds.

Definition NumberPattern (s : string) : Prop :=
  exists sign int frac exp,
    s = sign ++ int ++ frac ++ exp
    /\ (sign = EmptyString \/ sign = "-")
    /\ digits int
    /\ fraction frac
    /\ exponent exp.

(** The number a digit string denotes, after the digits read so far. *)
Fixpoint digitsValue (acc : Z) (s : string) : Z :=
  match s with
  | EmptyString => acc
  | String c r => digitsValue (acc * 10 + (code c - 48)) r
  end.

(** The exponent [strconv] reads from a digit string: its value, except
    that it stops growing once it has reached 10000. *)
Definition cappedExp (ds : string) : Z := fst (fst (strconv.scanExp ds 0 false)).

(** The digits of a fraction [.ddd] and the value of an exponent
    [e+ddd]. *)
Definition fracDigits (frac : string) : string :=
  match frac with
  | String _ f => f
  | EmptyString => EmptyString
  end.

Definition expValue (exp : string) : Z :=
  match exp with
  | String _ (String sg ds) =>
      if Ascii.eqb sg "-" then - cappedExp ds
      else if Ascii.eqb sg "+" then cappedExp ds
      else cappedExp (String sg ds)
  | _ => 0
  end.

(** The literal [int frac exp] is, in magnitude, at least the least number
    that rounds to the infinite float64. *)
Definition literalExceeds (int frac exp : string) : bool :=
  strconv.exceeds 64 false
    (digitsValue 0 (int ++ fracDigits frac))
    (expValue exp - Z.of_nat (String.length (fracDigits frac))).

(** The digit loop of [readFloat] over one digit, and over a string of
    digits. *)
Definition digitStep (c : ascii) (st : strconv.scan) : strconv.scan :=
  if Ascii.eqb c "0" && (strconv.nd st =? 0) then
    strconv.mkScan (strconv.sawdot st) true (strconv.underscores st)
      (strconv.nd st) (strconv.dp st - 1) (strconv.mantissa st)
  else
    strconv.mkScan (strconv.sawdot st) true (strconv.underscores st)
      (strconv.nd st + 1) (strconv.dp st)
      (strconv.mantissa st * 10 + (code c - 48)).

Fixpoint digitsStep (ds : string) (st : strconv.scan) : strconv.scan :=
  match ds with
  | EmptyString => st
  | String c r => digitsStep r (digitStep c st)
  end.

(** [n] zeros. *)
Fixpoint zeros (n : nat) : string :=
  match n with
  | O => EmptyString
  | S n' => String "0" (zeros n')
  end.

(** The digit loop of [decimal.set] over one digit, and over a string of
    digits. *)
Definition setStep (c : ascii) (b : strconv.decimal.t) : strconv.decimal.t :=
  if Ascii.eqb c "0" && (strconv.decimal.nd b =? 0) then
    strconv.decimal.mk (strconv.decimal.d b) (strconv.decimal.nd b) (strconv.decimal.dp b - 1)
  else if strconv.decimal.nd b <? 800 then
    strconv.decimal.mk (strconv.decimal.d b * 10 + (code c - 48))
      (strconv.decimal.nd b + 1) (strconv.decimal.dp b)
  else b.

Fixpoint setSteps (ds : string) (b : strconv.decimal.t) : strconv.decimal.t :=
  match ds with
  | EmptyString => b
  | String c r => setSteps r (setStep c b)
  end.

(** ** A model of the collaborators, after the specification *)
Module SpecModel.

(** Modelled from the spec: the [Violation] of the data model, which
    stands for this repository's [errors.ValidationError] (not among the
    sources): the parameter, the offending value, one of five reasons and
    the schema.  A violation of the path resolver carries a message. *)
Inductive Reason : Type :=
| NotNumber
| NotBoolean
| NotInEnum
| ArrayItemMismatch
| ObjectSchemaMismatch.

Inductive Violation : Type :=
| ParamViolation (parameter : v3.Parameter_) (offendingValue : string)
    (reason : Reason) (schema : ptr base.Schema)
| ResolverViolation (message : string).

(** Modelled from the spec: [helpers.ConstructMapFromCSV] (section 4.1):
    the raw value is split on commas, entry i is a key and entry i+1 its
    value, an odd trailing entry is dropped, and a later duplicate of a key
    overwrites the earlier one. *)
Fixpoint overwrite (k v : string) (m : list (string * string)) : list (string * string) :=
  match m with
  | [] => [(k, v)]
  | (k', v') :: m' => if String.eqb k k' then (k, v) :: m' else (k', v') :: overwrite k v m'
  end.

Fixpoint pairUp (entries : list string) (m : list (string * string))
  : list (string * string) :=
  match entries with
  | k :: v :: rest => pairUp rest (overwrite k v m)
  | _ => m
  end.

Definition ConstructMapFromCSV (raw : string) : list (string * string) :=
  pairUp (strings.splitOn "," raw) [].

Section Model.

(** The path resolver and the structural schema validator stay opaque. *)
Variable findPath :
  http.Request -> list v3.Parameter_ -> ptr (list v3.Parameter_) * slice Violation.
Variable validateSchema :
  ptr base.Schema -> list (string * string) -> list Violation.

Definition isNil {T : Type} (l : list T) : bool :=
  match l with
  | [] => true
  | _ :: _ => false
  end.

(** Modelled from the spec: the per-item dispatch of section 4.3, which
    follows the table of section 4.2 on the nested item schema: an item
    conforms when the check of every declared tag passes. *)
Fixpoint itemConforms (sch : base.Schema) (exploded : bool) (item : string)
  {struct sch} : bool :=
  match sch with
  | base.mkSchema types enum items =>
      forallb
        (fun ty =>
           if String.eqb ty helpers.Integer || String.eqb ty helpers.Number then
             match strconv.ParseFloat item 64 with None => true | Some _ => false end
           else if String.eqb ty helpers.Boolean then
             match snd (strconv.ParseBool item) with None => true | Some _ => false end
           else if String.eqb ty helpers.Object then
             exploded || isNil (validateSchema (Some sch) (ConstructMapFromCSV item))
           else if String.eqb ty helpers.Array then
             exploded ||
             match items with
             | Some (base.mkDynamicValue n (Some (base.mkSchemaProxy (Some itemSch))) _) =>
                 if n =? 0
                 then forallb (itemConforms itemSch exploded) (strings.splitOn "," item)
                 else true
             | _ => true
             end
           else if String.eqb ty helpers.String then
             match enum with
             | Some entries => existsb (String.eqb (strings.TrimSpace item)) entries
             | None => true
             end
           else true)
        types
  end.

(** Modelled from the spec: [parameters.ValidateCookieArray], which is not
    among the sources (section 4.3, array-item-conformance): the raw value
    is decomposed into its comma-separated items and every item that fails
    the nested item schema contributes one [ArrayItemMismatch]. *)
Definition ValidateCookieArray (sch : ptr base.Schema) (p : v3.Parameter_)
  (value : string) : list Violation :=
  match sch with
  | Some (base.mkSchema _ _
            (Some (base.mkDynamicValue _ (Some (base.mkSchemaProxy (Some itemSch))) _))) =>
      flat_map
        (fun item =>
           if itemConforms itemSch (v3.IsExploded p) item then []
           else [ParamViolation p item ArrayItemMismatch sch])
        (strings.splitOn "," value)
  | _ => []
  end.

(** The collaborators of the model.  The document is the list of the
    parameters its operation declares, which the resolver hands on. *)
Definition collaborators : Collaborators :=
  Build_Collaborators
    (list v3.Parameter_) (list v3.Parameter_) Violation (list (string * string))
    findPath
    (fun _ pathItem => pathItem)
    ConstructMapFromCSV
    (fun sch obj _ _ _ _ _ _ => validateSchema sch obj)
    ValidateCookieArray
    (fun p v sch => ParamViolation p v NotNumber sch)
    (fun p v sch => ParamViolation p v NotBoolean sch)
    (fun p v sch => ParamViolation p v NotInEnum sch)
    "parameter" "query"
    (fun s => s).

End Model.

(** Three resolvers: one that resolves every request, one that resolves
    the root path only and reports the others, one that fails silently. *)
Definition resolveAll (_ : http.Request) (doc : list v3.Parameter_)
  : ptr (list v3.Parameter_) * slice Violation :=
  (Some doc, None).

Definition resolveRoot (request : http.Request) (doc : list v3.Parameter_)
  : ptr (list v3.Parameter_) * slice Violation :=
  if String.eqb (http.URL request) "/" then (Some doc, None)
  else (None, Some [ResolverViolation "path not found"]).

Definition noSchemaCheck (_ : ptr base.Schema) (_ : list (string * string))
  : list Violation := [].

Definition demo : Collaborators := collaborators resolveAll noSchemaCheck.
Definition demoRoot : Collaborators := collaborators resolveRoot noSchemaCheck.

(** Schemas and parameters of the examples. *)
Definition schemaOf (types : list string) : base.Schema :=
  base.mkSchema types None None.

Definition arrayOf (item : base.Schema) : base.Schema :=
  base.mkSchema [helpers.Array] None
    (Some (base.mkDynamicValue 0 (Some (base.mkSchemaProxy (Some item))) false)).

Definition enumOf (entries : list string) : base.Schema :=
  base.mkSchema [helpers.String] (Some entries) None.

Definition cookieParam (name : string) (sch : base.Schema) : v3.Parameter_ :=
  v3.mkParameter name helpers.Cookie (Some (base.mkSchemaProxy (Some sch))) false.

Definition get (cookies : list http.Cookie) : http.Request :=
  http.mkRequest "GET" "/" cookies.

(** A cookie parameter that declares no schema. *)
Definition noSchemaParam (name : string) : v3.Parameter_ :=
  v3.mkParameter name helpers.Cookie None false.

Definition cookie (name value : string) : http.Cookie := http.mkCookie name value.

(** Validators over the two model documents, with no error kept yet. *)
Definition validator (params : list v3.Parameter_) : @paramValidator demo :=
  @mkParamValidator demo params None.

Definition validatorRoot (params : list v3.Parameter_) : @paramValidator demoRoot :=
  @mkParamValidator demoRoot params None.

End SpecModel.

(** ** What a call comes to *)
Section Verdicts.

Context {C : Collaborators}.

(** How the loops end: a panic, or the [passed] the call returns. *)
Definition verdict (m : outcome (list ValidationError)) : option bool :=
  match m with
  | Panicked => None
  | Returned errs => Some (fst (finish errs))
  end.

Definition isPanicked {T : Type} (m : outcome T) : bool :=
  match m with
  | Panicked => true
  | Returned _ => false
  end.

Definition foundNothing {T : Type} (m : outcome (list T)) : bool :=
  match m with
  | Returned [] => true
  | _ => false
  end.

(** The parameters whose check dereferences a [nil] pointer: no schema
    (line 41), or an array tag on a parameter that is not exploded, with
    no items (line 78). *)
Definition panicking (p : v3.Parameter_) : bool :=
  match paramSchema p with
  | None => true
  | Some s =>
      existsb (String.eqb helpers.Array) (base.Type_ s)
      && negb (v3.IsExploded p)
      && match base.Items s with
         | None => true
         | Some _ => false
         end
  end.

(** The tags the switch has a case for. *)
Definition knownTag (ty : string) : bool :=
  String.eqb ty helpers.Integer || String.eqb ty helpers.Number
  || String.eqb ty helpers.Boolean || String.eqb ty helpers.Object
  || String.eqb ty helpers.Array || String.eqb ty helpers.String.

End Verdicts.

(** Strings of ASCII white space. *)
Fixpoint allSpace (s : string) : bool :=
  match s with
  | EmptyString => true
  | String c r => strings.isSpace1 c && allSpace r
  end.

(** A string without ASCII white space. *)
Fixpoint noSpace (s : string) : bool :=
  match s with
  | EmptyString => true
  | String c r => negb (strings.isSpace1 c) && noSpace r
  end.

(** A string that begins with an ASCII white-space byte, and one that
    neither begins nor ends with one. *)
Definition startsWithSpace (s : string) : bool :=
  match s with
  | String c _ => strings.isSpace1 c
  | EmptyString => false
  end.

Definition tidy (s : string) : bool :=
  negb (startsWithSpace s) && negb (startsWithSpace (strings.rev s)).

(** * Properties *)

(** ** The library models on examples *)

Example ParseFloat_accepts :
  forallb parses
    ["1"; "-1.5"; "+3"; "1e10"; "1E-5"; ".5"; "5."; "007.50"; "1e-400";
     "1.7976931348623157e308"; "1.797693134862315807e308";
     "0x1p-2"; "0x1.fffffffffffff7p1023"; "1_000"; "inf"; "-Infinity"; "NaN"]
  = true.
Proof. vm_compute. reflexivity. Qed.

Example ParseFloat_syntax_errors :
  map (fun s => strconv.ParseFloat s 64)
    [EmptyString; "abc"; "1e"; "1e+"; "1 "; " 1"; "1.2.3"; "--1"; "0x1"; "_1"; "1__0";
     "+nan"; "infin"; "1,2"]
  = repeat (Some strconv.ErrSyntax) 14.
Proof. vm_compute. reflexivity. Qed.

Example ParseFloat_range_errors :
  map (fun s => strconv.ParseFloat s 64)
    ["1e309"; "1e400"; "-1e400"; "1.797693134862315808e308"; "0x1p1024"]
  = repeat (Some strconv.ErrRange) 5.
Proof. vm_compute. reflexivity. Qed.

(** [decimal.set] keeps 800 digits: 9e308 is out of range when written
    with 800 digits, and read as 9e307 when written with 801. *)
Example ParseFloat_keeps_800_digits :
  strconv.ParseFloat ("9" ++ zeros 799 ++ "e-491") 64 = Some strconv.ErrRange
  /\ strconv.ParseFloat ("9" ++ zeros 800 ++ "e-492") 64 = None
  /\ strconv.ParseFloat ("9" ++ zeros 800 ++ "e-491") 64 = Some strconv.ErrRange.
Proof. vm_compute. repeat split. Qed.

Example TrimSpace_examples :
  strings.TrimSpace " red " = "red"
  /\ strings.TrimSpace "Red" = "Red"
  /\ strings.TrimSpace "  a b  " = "a b"
  /\ strings.TrimSpace (String (ascii_of_nat 9) (String (ascii_of_nat 10) "x"))
     = "x"
  /\ strings.TrimSpace
       (String (ascii_of_nat 194) (String (ascii_of_nat 160)
          (String "x" (String (ascii_of_nat 227) (String (ascii_of_nat 128)
             (String (ascii_of_nat 128) EmptyString))))))
     = "x"
  /\ strings.TrimSpace "   " = EmptyString.
Proof. repeat split. Qed.

Example ToLower_examples (unicodeLower : string -> string) :
  strings.ToLower unicodeLower "MayBe" = "maybe"
  /\ strings.ToLower unicodeLower "1E5" = "1e5".
Proof. split; reflexivity. Qed.

(** The decoding examples of the specification (section 8). *)
Example ConstructMapFromCSV_examples :
  SpecModel.ConstructMapFromCSV "role,admin,level,3" = [("role", "admin"); ("level", "3")]
  /\ SpecModel.ConstructMapFromCSV "role,admin,level" = [("role", "admin")].
Proof. split; reflexivity. Qed.

(** Whole calls in the model: an enum parameter, and two cookies of the
    same name next to one whose name differs in case. *)
Example enum_calls :
  let colour := SpecModel.cookieParam "colour" (SpecModel.enumOf ["red"; "green"; "blue"]) in
  let run value :=
    snd (ValidateCookieParams (SpecModel.validator [colour])
           (SpecModel.get [SpecModel.cookie "colour" value])) in
  let violation value :=
    SpecModel.ParamViolation colour value SpecModel.NotInEnum (paramSchema colour) in
  run " red " = Returned (true, None)
  /\ run "Red" = Returned (false, Some [violation "red"])
  /\ run "purple" = Returned (false, Some [violation "purple"]).
Proof. repeat split. Qed.

Example same_named_cookies :
  let n := SpecModel.cookieParam "n" (SpecModel.schemaOf [helpers.Integer; helpers.Boolean]) in
  let violation reason value := SpecModel.ParamViolation n value reason (paramSchema n) in
  snd (ValidateCookieParams (SpecModel.validator [n])
         (SpecModel.get [SpecModel.cookie "n" "abc"; SpecModel.cookie "N" "zzz";
                         SpecModel.cookie "n" "1"; SpecModel.cookie "n" "x"]))
  = Returned
      (false,
       Some [violation SpecModel.NotNumber "abc"; violation SpecModel.NotBoolean "abc";
             violation SpecModel.NotNumber "x"; violation SpecModel.NotBoolean "x"]).
Proof. reflexivity. Qed.

(** ** Loops and their checks *)
Section Loops.

Context {C : Collaborators}.

Lemma bind_Returned_r {T : Type} (m : outcome T) :
  (x <- m ;; Returned x) = m.
Proof. destruct m; reflexivity. Qed.

Lemma joinAll_app {T : Type} (l1 l2 : list (outcome (list T))) :
  joinAll (l1 ++ l2)
  = (x <- joinAll l1 ;; y <- joinAll l2 ;; Returned (x ++ y)%list).
Proof.
  induction l1 as [|m l1 IH]; simpl.
  - now rewrite bind_Returned_r.
  - destruct m as [x|]; simpl; [|reflexivity].
    rewrite IH.
    destruct (joinAll l1) as [xs|]; simpl; [|reflexivity].
    destruct (joinAll l2) as [ys|]; simpl; [|reflexivity].
    now rewrite app_assoc.
Qed.

Lemma joinAll_concat {T : Type} (ls : list (list (outcome (list T)))) :
  joinAll (map joinAll ls) = joinAll (concat ls).
Proof.
  induction ls as [|l ls IH]; simpl; [reflexivity|].
  rewrite joinAll_app, IH. reflexivity.
Qed.

Lemma joinAll_Panicked {T : Type} (l : list (outcome (list T))) :
  List.In Panicked l -> joinAll l = Panicked.
Proof.
  induction l as [|m l IH]; simpl; [tauto|].
  intros [->|H]; [reflexivity|].
  destruct m; simpl; [|reflexivity].
  now rewrite (IH H).
Qed.

(** A loop whose body appends what a check of the element returns collects
    the checks of all elements. *)
Lemma forEach_joinAll {T S : Type} (g : T -> outcome (list S))
  (body : list S -> T -> outcome (list S)) :
  (forall acc x, body acc x = (new <- g x ;; Returned (acc ++ new)%list)) ->
  forall l acc,
    forEach l acc body = (news <- joinAll (map g l) ;; Returned (acc ++ news)%list).
Proof.
  intros Hbody. induction l as [|x l IH]; intros acc; simpl.
  - now rewrite app_nil_r.
  - rewrite Hbody. destruct (g x) as [new|]; simpl; [|reflexivity].
    rewrite IH. destruct (joinAll (map g l)) as [news|]; simpl; [|reflexivity].
    now rewrite app_assoc.
Qed.

(** The same for a body that skips the elements a test rejects. *)
Lemma forEach_filter_joinAll {T S : Type} (keep : T -> bool) (g : T -> outcome (list S))
  (body : list S -> T -> outcome (list S)) :
  (forall acc x,
     body acc x
     = if keep x then (new <- g x ;; Returned (acc ++ new)%list) else Returned acc) ->
  forall l acc,
    forEach l acc body
    = (news <- joinAll (map g (filter keep l)) ;; Returned (acc ++ news)%list).
Proof.
  intros Hbody. induction l as [|x l IH]; intros acc; simpl.
  - now rewrite app_nil_r.
  - rewrite Hbody. destruct (keep x); simpl.
    + destruct (g x) as [new|]; simpl; [|reflexivity].
      rewrite IH. destruct (joinAll _) as [news|]; simpl; [|reflexivity].
      now rewrite app_assoc.
    + apply IH.
Qed.

Ltac split_cases :=
  repeat match goal with
         | |- context [if ?b then _ else _] => destruct b
         | |- context [match ?x with _ => _ end] => destruct x
         end.

(** The switch appends to the violations collected so far and reads
    nothing of them. *)
Lemma typeCase_acc (p : v3.Parameter_) (sch : ptr base.Schema) (cookie : http.Cookie)
  (acc : list ValidationError) (ty : string) :
  typeCase p sch cookie acc ty
  = (new <- tagErrors p sch cookie ty ;; Returned (acc ++ new)%list).
Proof.
  unfold tagErrors, typeCase, deref, bind.
  split_cases; simpl; rewrite ?app_nil_r; reflexivity.
Qed.

Lemma cookieCase_acc (p : v3.Parameter_) (acc : list ValidationError) (cookie : http.Cookie) :
  cookieCase p acc cookie
  = if String.eqb (http.Name cookie) (v3.Name p)
    then (new <- cookieErrors p cookie ;; Returned (acc ++ new)%list)
    else Returned acc.
Proof.
  unfold cookieCase, cookieErrors, tagChecks. fold (paramSchema p).
  destruct (String.eqb _ _); [|reflexivity].
  destruct (paramSchema p) as [s|]; simpl; [|reflexivity].
  apply forEach_joinAll. intros; apply typeCase_acc.
Qed.

Lemma paramCase_acc (request : http.Request) (acc : list ValidationError)
  (p : v3.Parameter_) :
  paramCase request acc p
  = if String.eqb (v3.In p) helpers.Cookie
    then (new <- joinAll (map (cookieErrors p) (matching p (http.Cookies request))) ;;
          Returned (acc ++ new)%list)
    else Returned acc.
Proof.
  unfold paramCase, matching.
  destruct (String.eqb _ _); [|reflexivity].
  apply forEach_filter_joinAll. intros; apply cookieCase_acc.
Qed.

(** The three nested loops collect the checks of [checks], in order. *)
Lemma forEach_params (request : http.Request) (params : list v3.Parameter_) :
  forEach params [] (paramCase request)
  = joinAll (checks params (http.Cookies request)).
Proof.
  unfold checks, cookieParams.
  rewrite (forEach_filter_joinAll
             (fun p => String.eqb (v3.In p) helpers.Cookie)
             (fun p => joinAll (map (cookieErrors p) (matching p (http.Cookies request))))
             (paramCase request) (paramCase_acc request)).
  simpl. rewrite bind_Returned_r.
  rewrite flat_map_concat_map, <- joinAll_concat, map_map. reflexivity.
Qed.


(** What a call returns, in terms of its checks. *)
Lemma ValidateCookieParams_checks (v : paramValidator) (request : http.Request) :
  snd (ValidateCookieParams v request)
  = match FindPath request (document v) with
    | (Some pathItem, None) =>
        errs <- joinAll (checks (ExtractParamsForOperation request pathItem)
                           (http.Cookies request)) ;;
        Returned (finish errs)
    | (_, errs) => Returned (false, errs)
    end.
Proof.
  unfold ValidateCookieParams.
  destruct (FindPath request (document v)) as [[pathItem|] [errs|]]; simpl;
    try reflexivity.
  now rewrite forEach_params.
Qed.

End Loops.

(** ** The switch, tag by tag *)
Section Tags.

Context {C : Collaborators}.

Variables (p : v3.Parameter_) (cookie : http.Cookie) (acc : list ValidationError).

Lemma typeCase_numeric (sch : ptr base.Schema) (ty : string) :
  ty = helpers.Integer \/ ty = helpers.Number ->
  typeCase p sch cookie acc ty
  = match strconv.ParseFloat (http.Value cookie) 64 with
    | Some _ =>
        Returned (acc ++ [InvalidCookieParamNumber p (ToLower (http.Value cookie)) sch])%list
    | None => Returned acc
    end.
Proof. intros [->| ->]; reflexivity. Qed.

Lemma typeCase_boolean (sch : ptr base.Schema) :
  typeCase p sch cookie acc helpers.Boolean
  = match snd (strconv.ParseBool (http.Value cookie)) with
    | Some _ =>
        Returned (acc ++ [IncorrectCookieParamBool p (ToLower (http.Value cookie)) sch])%list
    | None => Returned acc
    end.
Proof.
  unfold typeCase; simpl.
  destruct (strconv.ParseBool (http.Value cookie)) as [b [e|]]; reflexivity.
Qed.

Lemma typeCase_string (s : base.Schema) :
  typeCase p (Some s) cookie acc helpers.String
  = match base.Enum s with
    | Some enum =>
        if matchFound (http.Value cookie) enum then Returned acc
        else Returned
               (acc ++ [IncorrectCookieParamEnum p (ToLower (http.Value cookie)) (Some s)])%list
    | None => Returned acc
    end.
Proof.
  unfold typeCase; simpl.
  destruct (base.Enum s) as [enum|]; [|reflexivity].
  destruct (matchFound (http.Value cookie) enum); reflexivity.
Qed.

Lemma typeCase_array (s : base.Schema) :
  typeCase p (Some s) cookie acc helpers.Array
  = if v3.IsExploded p then Returned acc
    else match base.Items s with
         | Some items =>
             if base.IsA items
             then Returned (acc ++ ValidateCookieArray (Some s) p (http.Value cookie))%list
             else Returned acc
         | None => Panicked
         end.
Proof.
  unfold typeCase; simpl.
  destruct (v3.IsExploded p); simpl; [reflexivity|].
  destruct (base.Items s); reflexivity.
Qed.

Lemma typeCase_object (s : base.Schema) :
  typeCase p (Some s) cookie acc helpers.Object
  = if v3.IsExploded p then Returned acc
    else Returned
           (acc ++ ValidateParameterSchema (Some s)
                     (ConstructMapFromCSV (http.Value cookie)) EmptyString
                     "Cookie parameter" "The cookie parameter" (v3.Name p)
                     ParameterValidation ParameterValidationQuery)%list.
Proof.
  unfold typeCase; simpl. destruct (v3.IsExploded p); reflexivity.
Qed.

(** The loop over the enum finds a match exactly when the trimmed value
    is one of the entries. *)
Lemma matchFound_In (value : string) (enum : list string) :
  matchFound value enum = true <-> List.In (strings.TrimSpace value) enum.
Proof.
  induction enum as [|e enum IH]; simpl.
  - split; [discriminate|tauto].
  - destruct (String.eqb_spec (strings.TrimSpace value) e) as [->|Hne].
    + split; auto.
    + rewrite IH. split; [auto|]. intros [H|H]; [congruence|exact H].
Qed.

End Tags.

(** Checks that find nothing to check. *)
Section NoChecks.

Context {C : Collaborators}.

Lemma checks_nil (params : list v3.Parameter_) (cookies : list http.Cookie) :
  (forall p cookie,
     List.In p params -> v3.In p = helpers.Cookie -> List.In cookie cookies ->
     http.Name cookie <> v3.Name p) ->
  checks params cookies = [].
Proof.
  intros H. unfold checks, cookieParams.
  induction params as [|p params IH]; simpl; [reflexivity|].
  destruct (String.eqb_spec (v3.In p) helpers.Cookie) as [Hin|Hin]; simpl.
  - replace (matching p cookies) with (@nil http.Cookie).
    + simpl. apply IH. intros q c Hq. apply H. now right.
    + symmetry. unfold matching.
      assert (Hc : forall c, List.In c cookies -> http.Name c <> v3.Name p)
        by (intros c Hc; apply (H p c); auto; now left).
      clear -Hc. induction cookies as [|c cookies IHc]; simpl; [reflexivity|].
      destruct (String.eqb_spec (http.Name c) (v3.Name p)) as [E|E].
      * exfalso. apply (Hc c); [now left|exact E].
      * apply IHc. intros c' Hc'. apply Hc. now right.
  - apply IH. intros q c Hq. apply H. now right.
Qed.

Lemma checks_In (params : list v3.Parameter_) (cookies : list http.Cookie)
  (p : v3.Parameter_) (cookie : http.Cookie) :
  List.In p params -> v3.In p = helpers.Cookie ->
  List.In cookie cookies -> http.Name cookie = v3.Name p ->
  List.In (cookieErrors p cookie) (checks params cookies).
Proof.
  intros Hp Hin Hc Hname. unfold checks.
  apply in_flat_map. exists p. split.
  - apply filter_In. split; [exact Hp|]. now apply String.eqb_eq.
  - apply in_map. apply filter_In. split; [exact Hc|]. now apply String.eqb_eq.
Qed.

End NoChecks.

(** ** Parameters without a schema *)
Section NoSchema.

Context {C : Collaborators}.

(** C1 (as the code has it).  The specification promises that a cookie
    parameter with no schema is accepted whatever the cookie's value.  The
    code reads [sch.Type] of the [nil] schema (line 41): as soon as the
    request carries a cookie with the name of such a parameter, the call
    panics and returns nothing. *)
Theorem nil_schema_panics (v : paramValidator) (request : http.Request)
  (pathItem : PathItem) (p : v3.Parameter_) (cookie : http.Cookie) :
  FindPath request (document v) = (Some pathItem, None) ->
  List.In p (ExtractParamsForOperation request pathItem) ->
  v3.In p = helpers.Cookie ->
  paramSchema p = None ->
  List.In cookie (http.Cookies request) ->
  http.Name cookie = v3.Name p ->
  snd (ValidateCookieParams v request) = Panicked.
Proof.
  intros Hpath Hp Hin Hsch Hc Hname.
  rewrite ValidateCookieParams_checks, Hpath.
  rewrite joinAll_Panicked; [reflexivity|].
  replace Panicked with (cookieErrors p cookie).
  - now apply checks_In.
  - unfold cookieErrors, tagChecks. now rewrite Hsch.
Qed.

End NoSchema.

Lemma nil_schema_panics_witness :
  paramSchema (SpecModel.noSchemaParam "session") = None
  /\ snd (ValidateCookieParams
            (SpecModel.validator [SpecModel.noSchemaParam "session"])
            (SpecModel.get [SpecModel.cookie "session" "abc"]))
     = Panicked.
Proof.
  split; [reflexivity|].
  apply (nil_schema_panics (C := SpecModel.demo)
           (SpecModel.validator [SpecModel.noSchemaParam "session"])
           (SpecModel.get [SpecModel.cookie "session" "abc"])
           [SpecModel.noSchemaParam "session"]
           (SpecModel.noSchemaParam "session")
           (SpecModel.cookie "session" "abc"));
    first [reflexivity | now left].
Defined.

(** ** The outcome *)
Section Outcome.

Context {C : Collaborators}.

Lemma finish_passed (errs : list ValidationError) :
  fst (finish errs) = true <-> len (snd (finish errs)) = 0%nat.
Proof.
  unfold finish. destruct errs; simpl; split; congruence.
Qed.

(** Without any assumption on the resolver: [passed] is true only with no
    violation, and once the operation is resolved the converse holds too. *)
Lemma passed_without_violations (v : paramValidator) (request : http.Request)
  (passed : bool) (errs : slice ValidationError) :
  snd (ValidateCookieParams v request) = Returned (passed, errs) ->
  (passed = true -> len errs = 0%nat)
  /\ (forall pathItem,
        FindPath request (document v) = (Some pathItem, None) ->
        len errs = 0%nat -> passed = true).
Proof.
  rewrite ValidateCookieParams_checks.
  destruct (FindPath request (document v)) as [[pathItem|] [errs0|]];
    try (intros [= <- <-]; split; [discriminate|intros pathItem' H; discriminate H]).
  destruct (joinAll _) as [found|]; simpl; [|discriminate].
  intros [= Heq]. pose proof (finish_passed found) as Hfin.
  rewrite Heq in Hfin. simpl in Hfin. split; [apply Hfin|intros pathItem' _; apply Hfin].
Qed.

(** C2.  Whenever the call returns, [passed] is true exactly when the
    returned violations are empty, for a resolver that reports a violation
    when it fails; a request whose operation is not resolved returns false
    with the resolver's violations; a request none of whose cookies carries
    the name of a cookie parameter returns true. *)
Theorem passed_iff_no_violations (Hresolver : resolverReports)
  (v : paramValidator) (request : http.Request) :
  (forall passed errs,
     snd (ValidateCookieParams v request) = Returned (passed, errs) ->
     (passed = true <-> len errs = 0%nat))
  /\ (forall pathItem errs,
        FindPath request (document v) = (pathItem, errs) ->
        pathItem = None \/ errs <> None ->
        snd (ValidateCookieParams v request) = Returned (false, errs))
  /\ (forall pathItem,
        FindPath request (document v) = (Some pathItem, None) ->
        (forall p cookie,
           List.In p (ExtractParamsForOperation request pathItem) ->
           v3.In p = helpers.Cookie ->
           List.In cookie (http.Cookies request) ->
           http.Name cookie <> v3.Name p) ->
        snd (ValidateCookieParams v request) = Returned (true, None)).
Proof.
  rewrite ValidateCookieParams_checks.
  split; [|split].
  - intros passed errs.
    destruct (FindPath request (document v)) as [pathItem errs0] eqn:Hpath.
    assert (Hfail : pathItem = None \/ errs0 <> None ->
                    Returned (false, errs0) = Returned (passed, errs) ->
                    (passed = true <-> len errs = 0%nat)).
    { intros Hor Heq. injection Heq as <- <-.
      pose proof (Hresolver _ _ _ _ Hpath Hor). split; [discriminate|lia]. }
    destruct pathItem as [pathItem|], errs0 as [errs0|];
      try (apply Hfail; auto; right; discriminate).
    destruct (joinAll _) as [found|]; simpl; [|discriminate].
    intros Heq. injection Heq as Heq.
    pose proof (finish_passed found) as Hfin. rewrite Heq in Hfin. exact Hfin.
  - intros pathItem errs -> Hor.
    destruct pathItem, errs; try reflexivity.
    destruct Hor; congruence.
  - intros pathItem -> Hnone.
    now rewrite (checks_nil _ _ Hnone).
Qed.

End Outcome.

Lemma resolveRoot_reports : @resolverReports SpecModel.demoRoot.
Proof.
  intros request doc pathItem errs. simpl. unfold SpecModel.resolveRoot.
  destruct (String.eqb (http.URL request) "/"); intros [= <- <-].
  - intros [H|H]; [discriminate|congruence].
  - intros _. simpl. lia.
Defined.

Lemma passed_iff_no_violations_witness :
  snd (ValidateCookieParams (SpecModel.validatorRoot [])
         (http.mkRequest "GET" "/pets" [SpecModel.cookie "session" "abc"]))
  = Returned (false, Some [SpecModel.ResolverViolation "path not found"])
  /\ snd (ValidateCookieParams
            (SpecModel.validatorRoot [SpecModel.noSchemaParam "session"])
            (SpecModel.get [SpecModel.cookie "Session" "abc"]))
     = Returned (true, None).
Proof.
  split.
  - apply (proj1 (proj2
             (passed_iff_no_violations (C := SpecModel.demoRoot) resolveRoot_reports
                (SpecModel.validatorRoot [])
                (http.mkRequest "GET" "/pets" [SpecModel.cookie "session" "abc"])))
             None (Some [SpecModel.ResolverViolation "path not found"]));
      [reflexivity | now left].
  - apply (proj2 (proj2
             (passed_iff_no_violations (C := SpecModel.demoRoot) resolveRoot_reports
                (SpecModel.validatorRoot [SpecModel.noSchemaParam "session"])
                (SpecModel.get [SpecModel.cookie "Session" "abc"])))
             [SpecModel.noSchemaParam "session"]); [reflexivity|].
    intros p c [<-|[]] _ [<-|[]]. discriminate.
Defined.

(** ** The validator's state *)
Section State.

Context {C : Collaborators}.

(** C3 (as the code has it).  The call never changes the validator's
    document (nor the request, which it only reads), and what it returns
    depends on the request and the document alone, so that a second call
    returns what the first returned.  The validator itself is left as it
    was only when the operation resolves: when it does not, line 25 stores
    the resolver's violations in the validator's [errors]. *)
Theorem validator_state_after_call (v : paramValidator) (request : http.Request) :
  document (fst (ValidateCookieParams v request)) = document v
  /\ (forall pathItem,
        FindPath request (document v) = (Some pathItem, None) ->
        fst (ValidateCookieParams v request) = v)
  /\ (forall pathItem errs,
        FindPath request (document v) = (pathItem, errs) ->
        pathItem = None \/ errs <> None ->
        errors (fst (ValidateCookieParams v request)) = errs)
  /\ (forall v',
        document v' = document v ->
        snd (ValidateCookieParams v' request) = snd (ValidateCookieParams v request))
  /\ ValidateCookieParams (fst (ValidateCookieParams v request)) request
     = ValidateCookieParams v request.
Proof.
  repeat split.
  - unfold ValidateCookieParams.
    destruct (FindPath request (document v)) as [[pathItem|] [errs|]]; reflexivity.
  - intros pathItem H. unfold ValidateCookieParams. now rewrite H.
  - intros pathItem errs H Hor. unfold ValidateCookieParams. rewrite H.
    destruct pathItem, errs; try reflexivity. destruct Hor; congruence.
  - intros v' Hdoc. unfold ValidateCookieParams. rewrite Hdoc.
    destruct (FindPath request (document v)) as [[pathItem|] [errs|]]; reflexivity.
  - unfold ValidateCookieParams.
    destruct (FindPath request (document v)) as [[pathItem|] [errs|]] eqn:H;
      simpl; rewrite H; reflexivity.
Qed.

End State.

(** A request for a path the resolver does not know: the validator kept no
    error before the call and keeps the resolver's violation after it. *)
Lemma validator_state_changes :
  errors (SpecModel.validatorRoot []) = None
  /\ errors (fst (ValidateCookieParams (SpecModel.validatorRoot [])
                    (http.mkRequest "GET" "/pets" [])))
     = Some [SpecModel.ResolverViolation "path not found"]
  /\ fst (ValidateCookieParams (SpecModel.validatorRoot [])
            (http.mkRequest "GET" "/pets" []))
     <> SpecModel.validatorRoot [].
Proof.
  repeat split. intros H. discriminate H.
Qed.

(** ** The boolean check *)
Section BooleanCheck.

Context {C : Collaborators}.

(** The spellings [strconv.ParseBool] accepts. *)
Lemma ParseBool_accepts (str : string) :
  snd (strconv.ParseBool str) = None
  <-> List.In str ["1"; "t"; "T"; "true"; "TRUE"; "True";
                   "0"; "f"; "F"; "false"; "FALSE"; "False"].
Proof.
  unfold strconv.ParseBool.
  destruct (existsb _ ["1"; "t"; "T"; "true"; "TRUE"; "True"]) eqn:Ht.
  - split; [intros _|reflexivity].
    apply existsb_exists in Ht as [x [Hx Heq]].
    apply String.eqb_eq in Heq. subst x.
    apply (in_or_app ["1"; "t"; "T"; "true"; "TRUE"; "True"]). now left.
  - destruct (existsb _ ["0"; "f"; "F"; "false"; "FALSE"; "False"]) eqn:Hf.
    + split; [intros _|reflexivity].
      apply existsb_exists in Hf as [x [Hx Heq]].
      apply String.eqb_eq in Heq. subst x.
      apply (in_or_app ["1"; "t"; "T"; "true"; "TRUE"; "True"]). now right.
    + split; [discriminate|]. intros Hin. exfalso.
      apply (in_app_or ["1"; "t"; "T"; "true"; "TRUE"; "True"]) in Hin.
      destruct Hin as [Hin|Hin].
      * assert (existsb (String.eqb str) ["1"; "t"; "T"; "true"; "TRUE"; "True"] = true)
          by (apply existsb_exists; exists str; split; [exact Hin|apply String.eqb_refl]).
        congruence.
      * assert (existsb (String.eqb str) ["0"; "f"; "F"; "false"; "FALSE"; "False"] = true)
          by (apply existsb_exists; exists str; split; [exact Hin|apply String.eqb_refl]).
        congruence.
Qed.

(** C4 (as the code has it).  The boolean check adds no violation for the
    twelve spellings [strconv.ParseBool] accepts, and for them only; every
    other value, "maybe" for one, adds exactly one violation, which records
    the lower-cased value. *)
Theorem boolean_check (p : v3.Parameter_) (sch : ptr base.Schema) (cookie : http.Cookie)
  (acc : list ValidationError) :
  let spellings := ["1"; "t"; "T"; "true"; "TRUE"; "True";
                    "0"; "f"; "F"; "false"; "FALSE"; "False"] in
  (List.In (http.Value cookie) spellings ->
   typeCase p sch cookie acc helpers.Boolean = Returned acc)
  /\ (~ List.In (http.Value cookie) spellings ->
      typeCase p sch cookie acc helpers.Boolean
      = Returned
          (acc ++ [IncorrectCookieParamBool p (ToLower (http.Value cookie)) sch])%list)
  /\ (http.Value cookie = "maybe" ->
      typeCase p sch cookie acc helpers.Boolean
      = Returned (acc ++ [IncorrectCookieParamBool p "maybe" sch])%list).
Proof.
  intros spellings. rewrite typeCase_boolean.
  pose proof (ParseBool_accepts (http.Value cookie)) as Hacc.
  fold spellings in Hacc.
  split; [|split].
  - intros Hin. apply Hacc in Hin. now rewrite Hin.
  - intros Hnot. destruct (snd (strconv.ParseBool (http.Value cookie))); [reflexivity|].
    exfalso. apply Hnot, Hacc. reflexivity.
  - intros ->. reflexivity.
Qed.

End BooleanCheck.

(** "tRUE" is "true" when case is ignored, and the boolean check rejects
    it. *)
Lemma boolean_check_is_case_sensitive :
  strings.ToLower (fun s => s) "tRUE" = "true"
  /\ typeCase (C := SpecModel.demo)
       (SpecModel.cookieParam "flag" (SpecModel.schemaOf [helpers.Boolean]))
       (Some (SpecModel.schemaOf [helpers.Boolean]))
       (SpecModel.cookie "flag" "tRUE") [] helpers.Boolean
     = Returned
         [SpecModel.ParamViolation
            (SpecModel.cookieParam "flag" (SpecModel.schemaOf [helpers.Boolean]))
            "true" SpecModel.NotBoolean
            (Some (SpecModel.schemaOf [helpers.Boolean]))].
Proof.
  split; reflexivity.
Qed.

(** ** The enum check *)
Section EnumCheck.

Context {C : Collaborators}.

(** C6.  For a string-typed schema with an enum the check passes exactly
    when the trimmed value is one of the entries, compared byte for byte;
    otherwise it adds one violation.  With the entries red, green and blue
    the value " red " passes, "Red" and "purple" each add one violation.
    Without an enum nothing is added. *)
Theorem enum_check (p : v3.Parameter_) (s : base.Schema) (cookie : http.Cookie)
  (acc : list ValidationError) :
  let violation :=
    IncorrectCookieParamEnum p (ToLower (http.Value cookie)) (Some s) in
  (forall enum,
     base.Enum s = Some enum ->
     (List.In (strings.TrimSpace (http.Value cookie)) enum ->
      typeCase p (Some s) cookie acc helpers.String = Returned acc)
     /\ (~ List.In (strings.TrimSpace (http.Value cookie)) enum ->
         typeCase p (Some s) cookie acc helpers.String
         = Returned (acc ++ [violation])%list))
  /\ (base.Enum s = Some ["red"; "green"; "blue"] ->
      (http.Value cookie = " red " ->
       typeCase p (Some s) cookie acc helpers.String = Returned acc)
      /\ (http.Value cookie = "Red" ->
          typeCase p (Some s) cookie acc helpers.String
          = Returned (acc ++ [IncorrectCookieParamEnum p "red" (Some s)])%list)
      /\ (http.Value cookie = "purple" ->
          typeCase p (Some s) cookie acc helpers.String
          = Returned (acc ++ [IncorrectCookieParamEnum p "purple" (Some s)])%list))
  /\ (base.Enum s = None ->
      typeCase p (Some s) cookie acc helpers.String = Returned acc).
Proof.
  intros violation. rewrite typeCase_string.
  split; [|split].
  - intros enum ->.
    pose proof (matchFound_In (http.Value cookie) enum) as Hfound.
    split.
    + intros Hin. apply Hfound in Hin. now rewrite Hin.
    + intros Hnot. destruct (matchFound (http.Value cookie) enum); [|reflexivity].
      exfalso. apply Hnot, Hfound. reflexivity.
  - intros ->. repeat split; intros ->; reflexivity.
  - intros ->. reflexivity.
Qed.

End EnumCheck.

(** ** Every check is run *)
Section Exhaustive.

Context {C : Collaborators}.

Lemma scalarTag_cases (ty : string) :
  scalarTag ty = true ->
  (ty = helpers.Integer \/ ty = helpers.Number) \/ ty = helpers.Boolean \/ ty = helpers.String.
Proof.
  unfold scalarTag. rewrite !orb_true_iff, !String.eqb_eq. tauto.
Qed.

Lemma scalar_check_at_most_one (p : v3.Parameter_) (s : base.Schema)
  (cookie : http.Cookie) (ty : string) :
  scalarTag ty = true ->
  tagErrors p (Some s) cookie ty = Returned []
  \/ exists e, tagErrors p (Some s) cookie ty = Returned [e].
Proof.
  intros Hty. unfold tagErrors.
  destruct (scalarTag_cases ty Hty) as [Hnum|[->| ->]].
  - rewrite (typeCase_numeric _ _ _ _ _ Hnum).
    destruct (strconv.ParseFloat _ _); [right; eexists|left]; reflexivity.
  - rewrite typeCase_boolean.
    destruct (snd _); [right; eexists|left]; reflexivity.
  - rewrite typeCase_string.
    destruct (base.Enum s) as [enum|]; [|now left].
    destruct (matchFound _ _); [left|right; eexists]; reflexivity.
Qed.


End Exhaustive.


(** ** The array check *)
Section ArrayCheck.

Context {C : Collaborators}.

(** An exploded parameter, and an item schema that is a boolean, skip the
    array check. *)
Lemma array_check_skipped (p : v3.Parameter_) (s : base.Schema) (cookie : http.Cookie)
  (acc : list ValidationError) :
  (v3.IsExploded p = true ->
   typeCase p (Some s) cookie acc helpers.Array = Returned acc)
  /\ (forall items,
        base.Items s = Some items -> base.IsA items = false ->
        typeCase p (Some s) cookie acc helpers.Array = Returned acc).
Proof.
  rewrite typeCase_array. split.
  - intros ->. reflexivity.
  - intros items -> ->. now destruct (v3.IsExploded p).
Qed.

(** C8 (as the code has it).  The specification promises that an array
    tag whose schema declares no item schema is skipped.  For a parameter
    that is not exploded the code calls [sch.Items.IsA()] on the [nil]
    pointer (line 78), which reads the receiver's field: as soon as the
    request carries a cookie with the parameter's name, the call panics. *)
Theorem nil_items_panics (v : paramValidator) (request : http.Request)
  (pathItem : PathItem) (p : v3.Parameter_) (s : base.Schema) (cookie : http.Cookie) :
  FindPath request (document v) = (Some pathItem, None) ->
  List.In p (ExtractParamsForOperation request pathItem) ->
  v3.In p = helpers.Cookie ->
  paramSchema p = Some s ->
  List.In helpers.Array (base.Type_ s) ->
  v3.IsExploded p = false ->
  base.Items s = None ->
  List.In cookie (http.Cookies request) ->
  http.Name cookie = v3.Name p ->
  snd (ValidateCookieParams v request) = Panicked.
Proof.
  intros Hpath Hp Hin Hsch Hty Hexp Hitems Hc Hname.
  rewrite ValidateCookieParams_checks, Hpath.
  rewrite joinAll_Panicked; [reflexivity|].
  replace Panicked with (cookieErrors p cookie).
  - now apply checks_In.
  - unfold cookieErrors, tagChecks. rewrite Hsch.
    apply joinAll_Panicked.
    replace Panicked with (tagErrors p (Some s) cookie helpers.Array).
    + now apply in_map.
    + unfold tagErrors. now rewrite typeCase_array, Hexp, Hitems.
Qed.

End ArrayCheck.

Lemma nil_items_panics_witness :
  base.Items (SpecModel.schemaOf [helpers.Array]) = None
  /\ snd (ValidateCookieParams
            (SpecModel.validator
               [SpecModel.cookieParam "ids" (SpecModel.schemaOf [helpers.Array])])
            (SpecModel.get [SpecModel.cookie "ids" "1,2,3"]))
     = Panicked.
Proof.
  split; [reflexivity|].
  apply (nil_items_panics (C := SpecModel.demo)
           (SpecModel.validator
              [SpecModel.cookieParam "ids" (SpecModel.schemaOf [helpers.Array])])
           (SpecModel.get [SpecModel.cookie "ids" "1,2,3"])
           [SpecModel.cookieParam "ids" (SpecModel.schemaOf [helpers.Array])]
           (SpecModel.cookieParam "ids" (SpecModel.schemaOf [helpers.Array]))
           (SpecModel.schemaOf [helpers.Array])
           (SpecModel.cookie "ids" "1,2,3"));
    first [reflexivity | now left].
Defined.

(** ** Cookies are matched by name *)
Section Matching.

Context {C : Collaborators}.

Lemma matching_skip (p : v3.Parameter_) (cs1 cs2 : list http.Cookie) (c : http.Cookie) :
  http.Name c <> v3.Name p ->
  matching p (cs1 ++ c :: cs2) = matching p (cs1 ++ cs2).
Proof.
  intros Hne. unfold matching. rewrite !filter_app. simpl.
  destruct (String.eqb_spec (http.Name c) (v3.Name p)); [contradiction|reflexivity].
Qed.

Lemma checks_skip (params : list v3.Parameter_) (cs1 cs2 : list http.Cookie)
  (c : http.Cookie) :
  (forall p, List.In p params -> v3.In p = helpers.Cookie -> http.Name c <> v3.Name p) ->
  checks params (cs1 ++ c :: cs2) = checks params (cs1 ++ cs2).
Proof.
  intros H. unfold checks, cookieParams.
  induction params as [|p params IH]; simpl; [reflexivity|].
  assert (IH' := IH (fun q Hq => H q (or_intror Hq))).
  destruct (String.eqb_spec (v3.In p) helpers.Cookie) as [Hin|Hin]; simpl.
  - rewrite matching_skip by (apply H; [now left|exact Hin]).
    now rewrite IH'.
  - exact IH'.
Qed.

Lemma joinAll_In {T : Type} (l : list (outcome (list T))) (xs all : list T) :
  joinAll l = Returned all ->
  List.In (Returned xs) l ->
  forall x, List.In x xs -> List.In x all.
Proof.
  revert all. induction l as [|m l IH]; simpl; intros all Hall Hin x Hx; [tauto|].
  destruct m as [ys|]; simpl in Hall; [|discriminate].
  destruct (joinAll l) as [zs|]; simpl in Hall; [|discriminate].
  injection Hall as <-. apply in_or_app.
  destruct Hin as [[= ->]|Hin]; [now left|right].
  now apply (IH zs eq_refl Hin).
Qed.

(** A value that is neither a number nor a boolean, against the tags integer
    and boolean. *)
Lemma cookieErrors_integer_boolean (p : v3.Parameter_) (s : base.Schema) (c : http.Cookie) :
  paramSchema p = Some s ->
  base.Type_ s = [helpers.Integer; helpers.Boolean] ->
  strconv.ParseFloat (http.Value c) 64 <> None ->
  snd (strconv.ParseBool (http.Value c)) <> None ->
  cookieErrors p c
  = Returned [InvalidCookieParamNumber p (ToLower (http.Value c)) (Some s);
              IncorrectCookieParamBool p (ToLower (http.Value c)) (Some s)].
Proof.
  intros Hsch Hty Hnum Hbool.
  unfold cookieErrors, tagChecks. rewrite Hsch, Hty. simpl.
  unfold tagErrors. rewrite (typeCase_numeric _ _ _ _ _ (or_introl eq_refl)).
  rewrite typeCase_boolean.
  destruct (strconv.ParseFloat (http.Value c) 64); [|congruence].
  destruct (snd (strconv.ParseBool (http.Value c))); [|congruence].
  reflexivity.
Qed.

(** C10.  The call checks, for every cookie parameter, each cookie of the
    request whose name equals the parameter's name byte for byte, on its
    own and against the whole type list; a cookie whose name equals no
    cookie parameter's name (a name that differs in case, for one) adds no
    check, and two cookies with the parameter's name add a check each.
    Every violation the check of a tag finds for such a cookie is among the
    violations the call returns, and the call fails.  So, for a parameter of
    the tags integer and boolean and three cookies, the second of another
    name, the first and the third of the parameter's name with values that
    are neither numbers nor booleans, the call returns four violations: two
    for the first cookie, two for the third, none for the second. *)
Theorem cookies_matched_by_name (v : paramValidator) (request : http.Request) :
  snd (ValidateCookieParams v request)
  = match FindPath request (document v) with
    | (Some pathItem, None) =>
        errs <- joinAll (checks (ExtractParamsForOperation request pathItem)
                           (http.Cookies request)) ;;
        Returned (finish errs)
    | (_, errs) => Returned (false, errs)
    end
  /\ (forall params cs1 c cs2,
        (forall p, List.In p params -> v3.In p = helpers.Cookie ->
                   http.Name c <> v3.Name p) ->
        checks params (cs1 ++ c :: cs2) = checks params (cs1 ++ cs2))
  /\ (forall p c1 c2,
        v3.In p = helpers.Cookie ->
        http.Name c1 = v3.Name p -> http.Name c2 = v3.Name p ->
        checks [p] [c1; c2] = [cookieErrors p c1; cookieErrors p c2])
  /\ (forall p c,
        v3.In p = helpers.Cookie ->
        http.Name c = v3.Name p ->
        cookieErrors p c
        = (s <- deref (paramSchema p) ;;
           forEach (base.Type_ s) [] (typeCase p (paramSchema p) c)))
  /\ (forall pathItem p s c ty found e passed errs,
        FindPath request (document v) = (Some pathItem, None) ->
        List.In p (ExtractParamsForOperation request pathItem) ->
        v3.In p = helpers.Cookie ->
        List.In c (http.Cookies request) ->
        http.Name c = v3.Name p ->
        paramSchema p = Some s ->
        List.In ty (base.Type_ s) ->
        typeCase p (Some s) c [] ty = Returned found ->
        List.In e found ->
        snd (ValidateCookieParams v request) = Returned (passed, errs) ->
        passed = false /\ exists l, errs = Some l /\ List.In e l)
  /\ (forall pathItem p s c1 c2 c3,
        FindPath request (document v) = (Some pathItem, None) ->
        ExtractParamsForOperation request pathItem = [p] ->
        v3.In p = helpers.Cookie ->
        paramSchema p = Some s ->
        base.Type_ s = [helpers.Integer; helpers.Boolean] ->
        http.Cookies request = [c1; c2; c3] ->
        http.Name c1 = v3.Name p ->
        http.Name c2 <> v3.Name p ->
        http.Name c3 = v3.Name p ->
        strconv.ParseFloat (http.Value c1) 64 <> None ->
        snd (strconv.ParseBool (http.Value c1)) <> None ->
        strconv.ParseFloat (http.Value c3) 64 <> None ->
        snd (strconv.ParseBool (http.Value c3)) <> None ->
        snd (ValidateCookieParams v request)
        = Returned
            (false,
             Some [InvalidCookieParamNumber p (ToLower (http.Value c1)) (Some s);
                   IncorrectCookieParamBool p (ToLower (http.Value c1)) (Some s);
                   InvalidCookieParamNumber p (ToLower (http.Value c3)) (Some s);
                   IncorrectCookieParamBool p (ToLower (http.Value c3)) (Some s)])).
Proof.
  split; [|split; [|split; [|split; [|split]]]].
  - apply ValidateCookieParams_checks.
  - intros params cs1 c cs2. apply checks_skip.
  - intros p c1 c2 Hin H1 H2. unfold checks, cookieParams, matching. simpl.
    rewrite Hin, H1, H2. simpl. rewrite String.eqb_refl. reflexivity.
  - intros p c Hin Hname.
    pose proof (cookieCase_acc p [] c) as H.
    rewrite Hname, String.eqb_refl in H. simpl in H.
    rewrite bind_Returned_r in H. rewrite <- H.
    unfold cookieCase. rewrite Hname, String.eqb_refl. reflexivity.
  - intros pathItem p s c ty found e passed errs
      Hpath Hp Hin Hc Hname Hsch Hty Hfound He Hcall.
    rewrite ValidateCookieParams_checks, Hpath in Hcall.
    destruct (joinAll (checks (ExtractParamsForOperation request pathItem)
                         (http.Cookies request))) as [l|] eqn:Hl;
      simpl in Hcall; [|discriminate].
    assert (Hel : List.In e l).
    { pose proof (checks_In _ _ p c Hp Hin Hc Hname) as Hck.
      destruct (cookieErrors p c) as [xs|] eqn:Hce.
      - apply (joinAll_In _ xs l Hl Hck).
        unfold cookieErrors, tagChecks in Hce. rewrite Hsch in Hce.
        apply (joinAll_In _ found xs Hce); [|exact He].
        rewrite <- Hfound. apply (in_map (tagErrors p (Some s) c)), Hty.
      - rewrite (joinAll_Panicked _ Hck) in Hl. discriminate. }
    destruct l as [|e0 l]; [destruct Hel|].
    unfold finish in Hcall. simpl in Hcall. injection Hcall as <- <-.
    split; [reflexivity|]. now exists (e0 :: l).
  - intros pathItem p s c1 c2 c3 Hpath Hparams Hin Hsch Hty Hcookies
      H1 H2 H3 Hn1 Hb1 Hn3 Hb3.
    rewrite ValidateCookieParams_checks, Hpath, Hparams, Hcookies.
    unfold checks, cookieParams, matching. simpl.
    rewrite Hin, H1, H3. simpl. rewrite String.eqb_refl.
    apply String.eqb_neq in H2. rewrite H2. simpl.
    rewrite (cookieErrors_integer_boolean p s c1 Hsch Hty Hn1 Hb1).
    rewrite (cookieErrors_integer_boolean p s c3 Hsch Hty Hn3 Hb3).
    reflexivity.
Qed.

End Matching.

Lemma cookies_matched_by_name_witness :
  let n := SpecModel.cookieParam "n" (SpecModel.schemaOf [helpers.Integer; helpers.Boolean]) in
  let violation reason value := SpecModel.ParamViolation n value reason (paramSchema n) in
  snd (ValidateCookieParams (SpecModel.validator [n])
         (SpecModel.get [SpecModel.cookie "n" "abc"; SpecModel.cookie "N" "zzz";
                         SpecModel.cookie "n" "x"]))
  = Returned
      (false,
       Some [violation SpecModel.NotNumber "abc"; violation SpecModel.NotBoolean "abc";
             violation SpecModel.NotNumber "x"; violation SpecModel.NotBoolean "x"]).
Proof.
  intros n violation.
  apply (proj2 (proj2 (proj2 (proj2 (proj2
           (cookies_matched_by_name (C := SpecModel.demo) (SpecModel.validator [n])
              (SpecModel.get [SpecModel.cookie "n" "abc"; SpecModel.cookie "N" "zzz";
                              SpecModel.cookie "n" "x"]))))))
           [n] n (SpecModel.schemaOf [helpers.Integer; helpers.Boolean])
           (SpecModel.cookie "n" "abc") (SpecModel.cookie "N" "zzz")
           (SpecModel.cookie "n" "x"));
    try reflexivity; discriminate.
Defined.

(** ** Array items, against the model of [ValidateCookieArray] *)

(** C9.  With the array check of the specification (every comma-separated
    item that fails the item schema adds one [ArrayItemMismatch]), a
    parameter that is not exploded and declares an array of integers
    accepts "1,2,3" and reports the one item of "1,x,3" and of "1,two,3"
    that is no number: the call returns false with one violation. *)
Theorem array_items_checked
  (findPath : http.Request -> list v3.Parameter_ ->
              ptr (list v3.Parameter_) * slice SpecModel.Violation)
  (validateSchema : ptr base.Schema -> list (string * string) -> list SpecModel.Violation)
  (name : string) (request : http.Request)
  (v : @paramValidator (SpecModel.collaborators findPath validateSchema)) :
  let sch := SpecModel.arrayOf (SpecModel.schemaOf [helpers.Integer]) in
  let p := SpecModel.cookieParam name sch in
  let mismatch item :=
    SpecModel.ParamViolation p item SpecModel.ArrayItemMismatch (Some sch) in
  findPath request (document v) = (Some [p], None) ->
  (SpecModel.ValidateCookieArray validateSchema (Some sch) p "1,2,3" = []
   /\ SpecModel.ValidateCookieArray validateSchema (Some sch) p "1,x,3" = [mismatch "x"])
  /\ (http.Cookies request = [SpecModel.cookie name "1,2,3"] ->
      snd (ValidateCookieParams v request) = Returned (true, None))
  /\ (http.Cookies request = [SpecModel.cookie name "1,x,3"] ->
      snd (ValidateCookieParams v request) = Returned (false, Some [mismatch "x"])
      /\ len (Some [mismatch "x"]) = 1%nat)
  /\ (http.Cookies request = [SpecModel.cookie name "1,two,3"] ->
      snd (ValidateCookieParams v request) = Returned (false, Some [mismatch "two"])
      /\ len (Some [mismatch "two"]) = 1%nat).
Proof.
  intros sch p mismatch Hpath.
  split; [split; reflexivity|].
  assert (Hrun : forall value,
            http.Cookies request = [SpecModel.cookie name value] ->
            snd (ValidateCookieParams v request)
            = Returned (finish (C := SpecModel.collaborators findPath validateSchema)
                          (SpecModel.ValidateCookieArray validateSchema
                             (Some sch) p value))).
  { intros value Hc. rewrite ValidateCookieParams_checks.
    simpl FindPath. rewrite Hpath. simpl ExtractParamsForOperation. rewrite Hc.
    unfold checks, cookieParams, matching. simpl.
    rewrite String.eqb_refl. simpl.
    unfold cookieErrors, tagChecks. simpl.
    now rewrite !app_nil_r. }
  split; [|split]; intros Hc; rewrite (Hrun _ Hc);
    [reflexivity | split; reflexivity | split; reflexivity].
Qed.

Lemma array_items_checked_witness :
  snd (ValidateCookieParams
         (SpecModel.validator
            [SpecModel.cookieParam "ids"
               (SpecModel.arrayOf (SpecModel.schemaOf [helpers.Integer]))])
         (SpecModel.get [SpecModel.cookie "ids" "1,two,3"]))
  = Returned
      (false,
       Some [SpecModel.ParamViolation
               (SpecModel.cookieParam "ids"
                  (SpecModel.arrayOf (SpecModel.schemaOf [helpers.Integer])))
               "two" SpecModel.ArrayItemMismatch
               (Some (SpecModel.arrayOf (SpecModel.schemaOf [helpers.Integer])))]).
Proof.
  apply (array_items_checked SpecModel.resolveAll SpecModel.noSchemaCheck "ids"
           (SpecModel.get [SpecModel.cookie "ids" "1,two,3"])
           (SpecModel.validator
              [SpecModel.cookieParam "ids"
                 (SpecModel.arrayOf (SpecModel.schemaOf [helpers.Integer]))]));
    reflexivity.
Defined.

(** ** The numeric check *)

(** *** [strconv.ParseFloat] on the values of the pattern *)

Ltac by_bits c :=
  destruct c as [[] [] [] [] [] [] [] []]; try discriminate; try reflexivity.

Lemma digit_not_special (c : ascii) :
  isDigit c = true ->
  Ascii.eqb c "_" = false /\ Ascii.eqb c "." = false
  /\ Ascii.eqb c "+" = false /\ Ascii.eqb c "-" = false
  /\ (strconv.lower c =? 120) = false.
Proof. by_bits c; intros _; repeat split. Qed.

Lemma digit_not_letter (c : ascii) :
  isDigit c = true ->
  Ascii.eqb (strings.lowerByte c) "i" = false
  /\ Ascii.eqb c "i" = false /\ Ascii.eqb c "I" = false
  /\ Ascii.eqb c "n" = false /\ Ascii.eqb c "N" = false.
Proof. by_bits c; intros _; repeat split. Qed.

Lemma zero_digit (c : ascii) : Ascii.eqb c "0" = true -> code c - 48 = 0.
Proof. intros H. apply Ascii.eqb_eq in H. now subst. Qed.

Lemma digit_range (c : ascii) : isDigit c = true -> 0 <= code c - 48 <= 9.
Proof.
  unfold isDigit, between. rewrite andb_true_iff, !Z.leb_le. lia.
Qed.

Lemma scanDigits_digit (c : ascii) (r : string) (st : strconv.scan) :
  isDigit c = true ->
  strconv.scanDigits false (String c r) st = strconv.scanDigits false r (digitStep c st).
Proof.
  intros Hc. destruct (digit_not_special c Hc) as (H1 & H2 & _).
  simpl. rewrite H1, H2, Hc. unfold digitStep.
  destruct (Ascii.eqb c "0" && (strconv.nd st =? 0)); reflexivity.
Qed.

Lemma scanDigits_digits (ds rest : string) :
  allDigits ds = true ->
  forall st,
    strconv.scanDigits false (ds ++ rest) st
    = strconv.scanDigits false rest (digitsStep ds st).
Proof.
  induction ds as [|c ds IH]; intros Hds st; [reflexivity|].
  simpl in Hds. apply andb_true_iff in Hds as [Hc Hds].
  change (String c ds ++ rest) with (String c (ds ++ rest)).
  rewrite scanDigits_digit by exact Hc. now apply IH.
Qed.

Lemma digitsStep_spec (ds : string) :
  allDigits ds = true ->
  forall st,
    0 <= strconv.nd st ->
    (strconv.nd st = 0 -> strconv.mantissa st = 0) ->
    strconv.sawdot (digitsStep ds st) = strconv.sawdot st
    /\ strconv.underscores (digitsStep ds st) = strconv.underscores st
    /\ (ds <> EmptyString -> strconv.sawdigits (digitsStep ds st) = true)
    /\ 0 <= strconv.nd (digitsStep ds st)
    /\ (strconv.nd (digitsStep ds st) = 0 -> strconv.mantissa (digitsStep ds st) = 0)
    /\ strconv.mantissa (digitsStep ds st) = digitsValue (strconv.mantissa st) ds
    /\ strconv.dp (digitsStep ds st) - strconv.nd (digitsStep ds st)
       = strconv.dp st - strconv.nd st - Z.of_nat (String.length ds).
Proof.
  induction ds as [|c ds IH]; intros Hds st Hnd Hzero.
  - simpl. repeat split; try tauto; lia.
  - simpl in Hds. apply andb_true_iff in Hds as [Hc Hds].
    assert (Hstep :
      strconv.sawdot (digitStep c st) = strconv.sawdot st
      /\ strconv.underscores (digitStep c st) = strconv.underscores st
      /\ strconv.sawdigits (digitStep c st) = true
      /\ 0 <= strconv.nd (digitStep c st)
      /\ (strconv.nd (digitStep c st) = 0 -> strconv.mantissa (digitStep c st) = 0)
      /\ strconv.mantissa (digitStep c st) = strconv.mantissa st * 10 + (code c - 48)
      /\ strconv.dp (digitStep c st) - strconv.nd (digitStep c st)
         = strconv.dp st - strconv.nd st - 1).
    { unfold digitStep.
      destruct (Ascii.eqb c "0") eqn:H0; simpl.
      - destruct (Z.eqb_spec (strconv.nd st) 0) as [E|E]; simpl.
        + rewrite (zero_digit c H0), (Hzero E). repeat split; try tauto; lia.
        + repeat split; try tauto; lia.
      - repeat split; try tauto; lia. }
    destruct Hstep as (S1 & S2 & S3 & S4 & S5 & S6 & S7).
    destruct (IH Hds (digitStep c st) S4 S5) as (I1 & I2 & I3 & I4 & I5 & I6 & I7).
    simpl digitsStep.
    repeat split.
    + congruence.
    + congruence.
    + intros _. destruct ds; [exact S3|]. apply I3. discriminate.
    + exact I4.
    + exact I5.
    + rewrite I6, S6. reflexivity.
    + rewrite I7, S7. simpl String.length. lia.
Qed.

Lemma digitsValue_app (a b : string) (acc : Z) :
  digitsValue acc (a ++ b) = digitsValue (digitsValue acc a) b.
Proof.
  revert acc. induction a as [|c a IH]; intros acc; simpl; [reflexivity|apply IH].
Qed.

Lemma scanExp_digits (ds : string) :
  allDigits ds = true ->
  forall e us,
    strconv.scanExp ds e us = (fst (fst (strconv.scanExp ds e us)), us, EmptyString).
Proof.
  induction ds as [|c ds IH]; intros Hds e us; [reflexivity|].
  simpl in Hds. apply andb_true_iff in Hds as [Hc Hds].
  simpl. rewrite Hc. apply IH, Hds.
Qed.

Lemma append_nil_r (s : string) : s ++ EmptyString = s.
Proof. induction s as [|c s IH]; simpl; [reflexivity|now rewrite IH]. Qed.

Lemma scanDigits_stop (exp : string) (st : strconv.scan) :
  exponent exp -> strconv.scanDigits false exp st = (st, exp).
Proof.
  intros [->|(e & sg & ds & -> & [->| ->] & _)]; reflexivity.
Qed.

Lemma scan_literal (int frac exp : string) :
  digits int -> fraction frac -> exponent exp ->
  exists st,
    strconv.scanDigits false (int ++ frac ++ exp) strconv.scan0 = (st, exp)
    /\ strconv.sawdigits st = true
    /\ strconv.underscores st = false
    /\ strconv.mantissa st = digitsValue 0 (int ++ fracDigits frac)
    /\ (if strconv.sawdot st then strconv.dp st else strconv.nd st) - strconv.nd st
       = - Z.of_nat (String.length (fracDigits frac)).
Proof.
  intros [Hne Hint] Hfrac Hexp.
  rewrite scanDigits_digits by exact Hint.
  destruct (digitsStep_spec int Hint strconv.scan0) as (I1 & I2 & I3 & I4 & I5 & I6 & I7);
    [simpl; lia | reflexivity |].
  set (st1 := digitsStep int strconv.scan0) in *.
  destruct Hfrac as [->|(f & -> & Hnf & Hf)].
  - exists st1. simpl. rewrite scanDigits_stop by exact Hexp.
    rewrite I1. simpl. rewrite append_nil_r. repeat split; auto. lia.
  - change (("." ++ f) ++ exp) with (String "." (f ++ exp)).
    cbn [strconv.scanDigits]. simpl (Ascii.eqb _ _). rewrite I1. simpl strconv.sawdot.
    rewrite scanDigits_digits by exact Hf.
    set (st2 := strconv.mkScan true (strconv.sawdigits st1) (strconv.underscores st1)
                  (strconv.nd st1) (strconv.nd st1) (strconv.mantissa st1)).
    destruct (digitsStep_spec f Hf st2) as (F1 & F2 & F3 & F4 & F5 & F6 & F7);
      [exact I4 | exact I5 |].
    exists (digitsStep f st2). rewrite scanDigits_stop by exact Hexp.
    repeat split.
    + now apply F3.
    + rewrite F2. exact I2.
    + rewrite F6. simpl. rewrite I6, digitsValue_app. reflexivity.
    + rewrite F1. simpl. rewrite F7. simpl. lia.
Qed.

Lemma digits_cons (s : string) :
  digits s -> exists d r, s = String d r /\ isDigit d = true /\ allDigits r = true.
Proof.
  intros [Hne Hs]. destruct s as [|d r]; [congruence|].
  simpl in Hs. apply andb_true_iff in Hs as [Hd Hr]. now exists d, r.
Qed.

Lemma readExponent_literal (exp : string) (dp1 : Z) :
  exponent exp ->
  strconv.readExponent false dp1 false exp = Some (dp1 + expValue exp, false, EmptyString).
Proof.
  intros [->|(e & sg & ds & -> & He & Hsg & Hds)].
  - simpl. now rewrite Z.add_0_r.
  - pose proof Hds as [_ Hall].
    destruct (digits_cons ds Hds) as (d & r & -> & Hd & Hr).
    destruct (digit_not_special d Hd) as (_ & _ & Hplus & Hminus & _).
    assert (Hscan : strconv.scanExp (String d r) 0 false
                    = (cappedExp (String d r), false, EmptyString))
      by (unfold cappedExp; now apply scanExp_digits).
    assert (He' : exists c, e = String c EmptyString /\ (strconv.lower c =? 101) = true)
      by (destruct He as [->| ->]; eexists; split; reflexivity).
    destruct He' as (c & -> & Hc).
    unfold strconv.readExponent, expValue.
    destruct Hsg as [->|[->| ->]];
      cbv beta iota zeta;
      change (String c EmptyString ++ ?x) with (String c x);
      cbv beta iota zeta; rewrite Hc.
    + change (EmptyString ++ String d r) with (String d r).
      cbv beta iota zeta. rewrite Hplus, Hminus, Hd, Hscan.
      f_equal. f_equal. f_equal. lia.
    + change ("-" ++ String d r) with (String "-" (String d r)).
      cbv beta iota zeta. simpl (Ascii.eqb _ _). cbv beta iota zeta.
      rewrite Hd, Hscan. f_equal. f_equal. f_equal. lia.
    + change ("+" ++ String d r) with (String "+" (String d r)).
      cbv beta iota zeta. simpl (Ascii.eqb _ _). cbv beta iota zeta.
      rewrite Hd, Hscan. f_equal. f_equal. f_equal. lia.
Qed.

Lemma special_literal (sign int rest : string) :
  sign = EmptyString \/ sign = "-" -> digits int ->
  strconv.special (sign ++ int ++ rest) = None.
Proof.
  intros Hsign Hint.
  destruct (digits_cons int Hint) as (d & r & -> & Hd & _).
  destruct (digit_not_special d Hd) as (_ & _ & Hplus & Hminus & _).
  destruct (digit_not_letter d Hd) as (Hlow & Hi & HI & Hn & HN).
  destruct Hsign as [->| ->].
  - change (EmptyString ++ String d r ++ rest) with (String d (r ++ rest)).
    unfold strconv.special. now rewrite Hplus, Hminus, Hi, HI, Hn, HN.
  - change ("-" ++ String d r ++ rest) with (String "-" (String d (r ++ rest))).
    unfold strconv.special, strconv.infinityLen. simpl. now rewrite Hlow.
Qed.

Lemma hexPrefix_not_x (a b : ascii) (r : string) :
  (strconv.lower b =? 120) = false ->
  strconv.hexPrefix (String a (String b r)) = (false, String a (String b r)).
Proof.
  intros H. destruct r; simpl; [reflexivity|].
  now rewrite H, andb_false_r.
Qed.

Lemma hexPrefix_literal (int frac exp : string) :
  digits int -> fraction frac -> exponent exp ->
  strconv.hexPrefix (int ++ frac ++ exp) = (false, int ++ frac ++ exp).
Proof.
  intros Hint Hfrac Hexp.
  destruct (digits_cons int Hint) as (d & r & -> & Hd & Hr).
  change (String d r ++ frac ++ exp) with (String d (r ++ frac ++ exp)).
  destruct r as [|b r].
  - destruct Hfrac as [->|(f & -> & _)].
    + destruct Hexp as [->|(e & sg & ds & -> & [->| ->] & _)];
        [reflexivity | now apply hexPrefix_not_x | now apply hexPrefix_not_x].
    + now apply hexPrefix_not_x.
  - simpl in Hr. apply andb_true_iff in Hr as [Hb _].
    apply hexPrefix_not_x. now destruct (digit_not_special b Hb) as (_ & _ & _ & _ & H).
Qed.

Lemma readFloat_literal (sign int frac exp : string) :
  sign = EmptyString \/ sign = "-" -> digits int -> fraction frac -> exponent exp ->
  strconv.readFloat (sign ++ int ++ frac ++ exp)
  = Some (digitsValue 0 (int ++ fracDigits frac),
          (if digitsValue 0 (int ++ fracDigits frac) =? 0 then 0
           else expValue exp - Z.of_nat (String.length (fracDigits frac))),
          false, EmptyString).
Proof.
  intros Hsign Hint Hfrac Hexp.
  destruct (scan_literal int frac exp Hint Hfrac Hexp) as (st & Hscan & Hsaw & Hus & Hmant & Hdp).
  pose proof (hexPrefix_literal int frac exp Hint Hfrac Hexp) as Hhex.
  assert (Hbody : forall s,
            (let '(hex, s2) := strconv.hexPrefix (int ++ frac ++ exp) in
             let '(st, s3) := strconv.scanDigits hex s2 strconv.scan0 in
             if negb (strconv.sawdigits st) then None
             else
               let dp0 := if strconv.sawdot st then strconv.dp st else strconv.nd st in
               let dp1 := if hex then dp0 * 4 else dp0 in
               let ndMant := if hex then strconv.nd st * 4 else strconv.nd st in
               match strconv.readExponent hex dp1 (strconv.underscores st) s3 with
               | None => None
               | Some (dp2, us, rest) =>
                   let exp := if strconv.mantissa st =? 0 then 0 else dp2 - ndMant in
                   let read := substring 0 (String.length s - String.length rest) s in
                   if us && negb (strconv.underscoreOK read) then None
                   else Some (strconv.mantissa st, exp, hex, rest)
               end)
            = Some (digitsValue 0 (int ++ fracDigits frac),
                    (if digitsValue 0 (int ++ fracDigits frac) =? 0 then 0
                     else expValue exp - Z.of_nat (String.length (fracDigits frac))),
                    false, EmptyString)).
  { intros s. rewrite Hhex, Hscan, Hsaw, Hus. cbv beta iota zeta. simpl negb.
    cbv beta iota zeta.
    rewrite (readExponent_literal exp _ Hexp). cbv beta iota zeta.
    simpl andb. cbv beta iota zeta. rewrite Hmant.
    destruct (digitsValue 0 (int ++ fracDigits frac) =? 0); [reflexivity|].
    do 4 f_equal. lia. }
  destruct (digits_cons int Hint) as (d & r & Eint & Hd & _).
  destruct (digit_not_special d Hd) as (_ & _ & Hplus & Hminus & _).
  destruct Hsign as [->| ->].
  - change (EmptyString ++ int ++ frac ++ exp) with (int ++ frac ++ exp).
    specialize (Hbody (int ++ frac ++ exp)). revert Hbody. rewrite Eint.
    change (String d r ++ frac ++ exp) with (String d (r ++ frac ++ exp)).
    intros Hbody. unfold strconv.readFloat. rewrite Hplus, Hminus. exact Hbody.
  - change ("-" ++ int ++ frac ++ exp) with (String "-" (int ++ frac ++ exp)).
    unfold strconv.readFloat. simpl (Ascii.eqb _ _ || _). cbv beta iota zeta.
    apply Hbody.
Qed.

Lemma exceeds_zero (bitSize exp : Z) (hex : bool) : strconv.exceeds bitSize hex 0 exp = false.
Proof.
  unfold strconv.exceeds. apply Z.leb_gt. rewrite Z.mul_0_l.
  apply Z.mul_pos_pos.
  - unfold strconv.halfwayToInf. destruct (bitSize =? 32); reflexivity.
  - apply Z.pow_pos_nonneg; [destruct hex; lia | lia].
Qed.

(** *** The fallback [decimal] on the values of the pattern *)

Lemma setDigits_digit (c : ascii) (r : string) (sd sg : bool) (b : strconv.decimal.t) :
  isDigit c = true ->
  strconv.setDigits (String c r) sd sg b = strconv.setDigits r sd true (setStep c b).
Proof.
  intros Hc. destruct (digit_not_special c Hc) as (H1 & H2 & _).
  simpl. rewrite H1, H2, Hc. unfold setStep.
  destruct (Ascii.eqb c "0" && (strconv.decimal.nd b =? 0)); [reflexivity|].
  destruct (strconv.decimal.nd b <? 800); reflexivity.
Qed.

Lemma setDigits_digits (ds rest : string) :
  allDigits ds = true ->
  forall sd sg b,
    strconv.setDigits (ds ++ rest) sd sg b
    = strconv.setDigits rest sd
        (match ds with EmptyString => sg | String _ _ => true end) (setSteps ds b).
Proof.
  induction ds as [|c ds IH]; intros Hds sd sg b; [reflexivity|].
  simpl in Hds. apply andb_true_iff in Hds as [Hc Hds].
  change (String c ds ++ rest) with (String c (ds ++ rest)).
  rewrite setDigits_digit by exact Hc. rewrite (IH Hds).
  destruct ds; reflexivity.
Qed.

Lemma setDigits_stop (exp : string) (sd sg : bool) (b : strconv.decimal.t) :
  exponent exp -> strconv.setDigits exp sd sg b = Some (sd, sg, b, exp).
Proof.
  intros [->|(e & sg' & ds & -> & [->| ->] & _)]; reflexivity.
Qed.

(** What the loop keeps: at most 800 digits, whose number bounds their
    value; the point never moves to the right. *)
Lemma setSteps_kept (ds : string) :
  allDigits ds = true ->
  forall b,
    0 <= strconv.decimal.nd b <= 800 ->
    0 <= strconv.decimal.d b < 10 ^ strconv.decimal.nd b ->
    0 <= strconv.decimal.nd (setSteps ds b) <= 800
    /\ 0 <= strconv.decimal.d (setSteps ds b) < 10 ^ strconv.decimal.nd (setSteps ds b)
    /\ strconv.decimal.dp (setSteps ds b) <= strconv.decimal.dp b
    /\ strconv.decimal.nd (setSteps ds b)
       <= strconv.decimal.nd b + Z.of_nat (String.length ds).
Proof.
  induction ds as [|c ds IH]; intros Hds b Hnd Hd.
  - simpl. repeat split; lia.
  - simpl in Hds. apply andb_true_iff in Hds as [Hc Hds].
    pose proof (digit_range c Hc) as Hr.
    assert (Hstep :
      0 <= strconv.decimal.nd (setStep c b) <= 800
      /\ 0 <= strconv.decimal.d (setStep c b) < 10 ^ strconv.decimal.nd (setStep c b)
      /\ strconv.decimal.dp (setStep c b) <= strconv.decimal.dp b
      /\ strconv.decimal.nd (setStep c b) <= strconv.decimal.nd b + 1).
    { unfold setStep.
      destruct (Ascii.eqb c "0" && (strconv.decimal.nd b =? 0)); simpl.
      - repeat split; lia.
      - destruct (Z.ltb_spec (strconv.decimal.nd b) 800) as [Hlt|Hge]; simpl.
        + rewrite Z.pow_add_r, Z.pow_1_r by lia. repeat split; lia.
        + repeat split; lia. }
    destruct Hstep as (S1 & S2 & S3 & S4).
    destruct (IH Hds (setStep c b) S1 S2) as (I1 & I2 & I3 & I4).
    simpl setSteps. simpl String.length. repeat split; lia.
Qed.

(** Up to 800 digits, the loop keeps them all. *)
Lemma setSteps_exact (ds : string) :
  allDigits ds = true ->
  forall b,
    0 <= strconv.decimal.nd b ->
    strconv.decimal.nd b + Z.of_nat (String.length ds) <= 800 ->
    (strconv.decimal.nd b = 0 -> strconv.decimal.d b = 0) ->
    strconv.decimal.d (setSteps ds b) = digitsValue (strconv.decimal.d b) ds
    /\ strconv.decimal.dp (setSteps ds b) - strconv.decimal.nd (setSteps ds b)
       = strconv.decimal.dp b - strconv.decimal.nd b - Z.of_nat (String.length ds).
Proof.
  induction ds as [|c ds IH]; intros Hds b Hnd Hlen Hzero.
  - simpl. split; lia.
  - simpl in Hds. apply andb_true_iff in Hds as [Hc Hds].
    simpl String.length in Hlen. rewrite Nat2Z.inj_succ in Hlen.
    assert (Hstep :
      0 <= strconv.decimal.nd (setStep c b) <= strconv.decimal.nd b + 1
      /\ (strconv.decimal.nd (setStep c b) = 0 -> strconv.decimal.d (setStep c b) = 0)
      /\ strconv.decimal.d (setStep c b) = strconv.decimal.d b * 10 + (code c - 48)
      /\ strconv.decimal.dp (setStep c b) - strconv.decimal.nd (setStep c b)
         = strconv.decimal.dp b - strconv.decimal.nd b - 1).
    { unfold setStep.
      destruct (Ascii.eqb c "0") eqn:H0; simpl.
      - destruct (Z.eqb_spec (strconv.decimal.nd b) 0) as [E|E]; simpl.
        + rewrite (zero_digit c H0), (Hzero E). repeat split; lia.
        + destruct (Z.ltb_spec (strconv.decimal.nd b) 800); simpl; repeat split; lia.
      - destruct (Z.ltb_spec (strconv.decimal.nd b) 800); simpl; repeat split; lia. }
    destruct Hstep as (S1 & S2 & S3 & S4).
    destruct (IH Hds (setStep c b)) as (I1 & I2); [lia|lia|exact S2|].
    simpl setSteps. simpl String.length. rewrite Nat2Z.inj_succ.
    split; [rewrite I1, S3; reflexivity|lia].
Qed.

Lemma setDigits_literal (int frac exp : string) :
  digits int -> fraction frac -> exponent exp ->
  exists sd b,
    strconv.setDigits (int ++ frac ++ exp) false false (strconv.decimal.mk 0 0 0)
    = Some (sd, true, b, exp)
    /\ 0 <= strconv.decimal.nd b <= 800
    /\ 0 <= strconv.decimal.d b < 10 ^ strconv.decimal.nd b
    /\ (if sd then strconv.decimal.dp b else strconv.decimal.nd b)
       <= Z.of_nat (String.length int)
    /\ ((String.length int + String.length (fracDigits frac) <= 800)%nat ->
        strconv.decimal.d b = digitsValue 0 (int ++ fracDigits frac)
        /\ (if sd then strconv.decimal.dp b else strconv.decimal.nd b) - strconv.decimal.nd b
           = - Z.of_nat (String.length (fracDigits frac))).
Proof.
  intros [Hne Hint] Hfrac Hexp.
  rewrite setDigits_digits by exact Hint.
  set (b0 := strconv.decimal.mk 0 0 0).
  destruct (setSteps_kept int Hint b0) as (K1 & K2 & K3 & K4);
    [simpl; lia | simpl; lia |].
  simpl in K4.
  set (b1 := setSteps int b0) in *.
  replace (match int with EmptyString => false | String _ _ => true end) with true
    by (destruct int; [congruence|reflexivity]).
  destruct Hfrac as [->|(f & -> & Hnf & Hf)].
  - exists false, b1.
    change (EmptyString ++ exp) with exp. rewrite setDigits_stop by exact Hexp.
    split; [reflexivity|]. split; [exact K1|]. split; [exact K2|]. split; [exact K4|].
    intros Hlen. simpl fracDigits in *. rewrite append_nil_r.
    destruct (setSteps_exact int Hint b0) as (E1 & E2);
      [simpl; lia | simpl in *; lia | reflexivity |].
    fold b1 in E1. split; [exact E1|]. simpl. lia.
  - change (("." ++ f) ++ exp) with (String "." (f ++ exp)).
    cbn [strconv.setDigits]. simpl (Ascii.eqb _ _). cbv beta iota.
    set (b1' := strconv.decimal.mk (strconv.decimal.d b1) (strconv.decimal.nd b1)
                  (strconv.decimal.nd b1)).
    rewrite setDigits_digits by exact Hf.
    destruct (setSteps_kept f Hf b1') as (F1 & F2 & F3 & F4);
      [exact K1 | exact K2 |].
    simpl in F3.
    exists true, (setSteps f b1').
    replace (match f with EmptyString => true | String _ _ => true end) with true
      by (destruct f; reflexivity).
    rewrite setDigits_stop by exact Hexp.
    split; [reflexivity|]. split; [exact F1|]. split; [exact F2|]. split; [lia|].
    intros Hlen. change (fracDigits ("." ++ f)) with f in *.
    destruct (setSteps_exact int Hint b0) as (E1 & E2);
      [simpl; lia | simpl in *; lia | reflexivity |].
    fold b1 in E1, E2. simpl in E1, E2.
    destruct (setSteps_exact f Hf b1') as (G1 & G2);
      [simpl; lia | simpl; lia | simpl; intros Hz; rewrite E1 |].
    + assert (Hlo : 0 <= strconv.decimal.d b1 < 1) by (rewrite Hz in K2; exact K2).
      rewrite E1 in Hlo. lia.
    + simpl in G1, G2. split; [|lia].
      rewrite G1, E1, digitsValue_app. reflexivity.
Qed.

(** [decimal.set] reads a value of the pattern, whatever its sign. *)
Lemma set_literal (int frac exp : string) :
  digits int -> fraction frac -> exponent exp ->
  exists b,
    (forall sign,
       sign = EmptyString \/ sign = "-" \/ sign = "+" ->
       strconv.set (sign ++ int ++ frac ++ exp) = Some b)
    /\ 0 <= strconv.decimal.nd b <= 800
    /\ 0 <= strconv.decimal.d b < 10 ^ strconv.decimal.nd b
    /\ strconv.decimal.dp b <= Z.of_nat (String.length int) + expValue exp
    /\ ((String.length int + String.length (fracDigits frac) <= 800)%nat ->
        strconv.decimal.d b = digitsValue 0 (int ++ fracDigits frac)
        /\ strconv.decimal.dp b - strconv.decimal.nd b
           = expValue exp - Z.of_nat (String.length (fracDigits frac))).
Proof.
  intros Hint Hfrac Hexp.
  destruct (setDigits_literal int frac exp Hint Hfrac Hexp)
    as (sd & b & Hscan & Hnd & Hd & Hdp & Hexact).
  set (dp0 := if sd then strconv.decimal.dp b else strconv.decimal.nd b) in *.
  exists (strconv.decimal.mk (strconv.decimal.d b) (strconv.decimal.nd b)
            (dp0 + expValue exp)).
  assert (Hbody :
    match strconv.setDigits (int ++ frac ++ exp) false false (strconv.decimal.mk 0 0 0) with
    | None => None
    | Some (sawdot, sawdigits, b, s2) =>
        if negb sawdigits then None
        else
          let dp0 := if sawdot then strconv.decimal.dp b else strconv.decimal.nd b in
          match strconv.readExponent false dp0 false s2 with
          | Some (dp1, _, EmptyString) =>
              Some (strconv.decimal.mk (strconv.decimal.d b) (strconv.decimal.nd b) dp1)
          | _ => None
          end
    end
    = Some (strconv.decimal.mk (strconv.decimal.d b) (strconv.decimal.nd b)
              (dp0 + expValue exp))).
  { rewrite Hscan. simpl negb. cbv beta iota zeta.
    rewrite (readExponent_literal exp _ Hexp). reflexivity. }
  split; [|split; [exact Hnd|split; [exact Hd|split; [simpl; lia|]]]].
  - destruct (digits_cons int Hint) as (c & r & Eint & Hc & _).
    destruct (digit_not_special c Hc) as (_ & _ & Hplus & Hminus & _).
    intros sign [->|[->| ->]].
    + change (EmptyString ++ int ++ frac ++ exp) with (int ++ frac ++ exp).
      revert Hbody. rewrite Eint.
      change (String c r ++ frac ++ exp) with (String c (r ++ frac ++ exp)).
      intros Hbody. unfold strconv.set. rewrite Hplus, Hminus. exact Hbody.
    + exact Hbody.
    + exact Hbody.
  - intros Hlen. destruct (Hexact Hlen) as [E1 E2]. simpl. split; [exact E1|lia].
Qed.

Lemma special_plus_literal (int rest : string) :
  digits int -> strconv.special ("+" ++ int ++ rest) = None.
Proof.
  intros Hint.
  destruct (digits_cons int Hint) as (d & r & -> & Hd & _).
  destruct (digit_not_letter d Hd) as (Hlow & _).
  unfold strconv.special, strconv.infinityLen. simpl. now rewrite Hlow.
Qed.

Lemma readFloat_plus_literal (int frac exp : string) :
  digits int -> fraction frac -> exponent exp ->
  strconv.readFloat ("+" ++ int ++ frac ++ exp)
  = Some (digitsValue 0 (int ++ fracDigits frac),
          (if digitsValue 0 (int ++ fracDigits frac) =? 0 then 0
           else expValue exp - Z.of_nat (String.length (fracDigits frac))),
          false, EmptyString).
Proof.
  intros Hint Hfrac Hexp.
  destruct (scan_literal int frac exp Hint Hfrac Hexp)
    as (st & Hscan & Hsaw & Hus & Hmant & Hdp).
  pose proof (hexPrefix_literal int frac exp Hint Hfrac Hexp) as Hhex.
  change ("+" ++ int ++ frac ++ exp) with (String "+" (int ++ frac ++ exp)).
  unfold strconv.readFloat. simpl (Ascii.eqb _ _ || _). cbv beta iota zeta.
  rewrite Hhex, Hscan, Hsaw, Hus. cbv beta iota zeta. simpl negb.
  cbv beta iota zeta.
  rewrite (readExponent_literal exp _ Hexp). cbv beta iota zeta.
  simpl andb. cbv beta iota zeta. rewrite Hmant.
  destruct (digitsValue 0 (int ++ fracDigits frac) =? 0); [reflexivity|].
  do 4 f_equal. lia.
Qed.

(** A value of the pattern is read to its end, with any sign: only the
    size of what [decimal.set] has kept of it can fail. *)
Lemma ParseFloat_signed_literal (sign int frac exp : string) (b : strconv.decimal.t) :
  sign = EmptyString \/ sign = "-" \/ sign = "+" ->
  digits int -> fraction frac -> exponent exp ->
  strconv.set (int ++ frac ++ exp) = Some b ->
  strconv.ParseFloat (sign ++ int ++ frac ++ exp) 64
  = if strconv.overflows 64 b then Some strconv.ErrRange else None.
Proof.
  intros Hsign Hint Hfrac Hexp Hb.
  destruct (set_literal int frac exp Hint Hfrac Hexp) as (b' & Hset & _).
  assert (b' = b).
  { pose proof (Hset EmptyString (or_introl eq_refl)) as H0.
    change (EmptyString ++ int ++ frac ++ exp) with (int ++ frac ++ exp) in H0.
    congruence. }
  subst b'. unfold strconv.ParseFloat.
  assert (Hsp : strconv.special (sign ++ int ++ frac ++ exp) = None).
  { destruct Hsign as [->|[->| ->]].
    - apply special_literal; [now left|exact Hint].
    - apply special_literal; [now right|exact Hint].
    - now apply special_plus_literal. }
  assert (Hrd : exists m e,
            strconv.readFloat (sign ++ int ++ frac ++ exp) = Some (m, e, false, EmptyString)).
  { destruct Hsign as [->|[->| ->]]; do 2 eexists.
    - apply readFloat_literal; auto.
    - apply readFloat_literal; auto.
    - now apply readFloat_plus_literal. }
  destruct Hrd as (m & e & Hrd).
  rewrite Hsp, Hrd, (Hset sign Hsign). reflexivity.
Qed.

(** What [decimal.set] has kept of a literal whose point stands after at
    most 308 digits is in range. *)
Lemma overflows_small (b : strconv.decimal.t) :
  0 <= strconv.decimal.nd b ->
  0 <= strconv.decimal.d b < 10 ^ strconv.decimal.nd b ->
  strconv.decimal.dp b <= 308 ->
  strconv.overflows 64 b = false.
Proof.
  intros Hnd Hd Hdp. unfold strconv.overflows, strconv.exceeds. apply Z.leb_gt.
  set (n := strconv.decimal.nd b) in *. set (p := strconv.decimal.dp b) in *.
  set (m := strconv.decimal.d b) in *.
  assert (Hbig : 10 ^ 308 < strconv.halfwayToInf 64) by (vm_compute; reflexivity).
  assert (H308 : 0 < 10 ^ 308) by (apply Z.pow_pos_nonneg; lia).
  generalize dependent (strconv.halfwayToInf 64). intros T HT.
  destruct (Z.le_gt_cases 0 (p - n)) as [Hk|Hk].
  - replace (Z.max 0 (- (p - n))) with 0 by lia.
    replace (Z.max 0 (p - n)) with (p - n) by lia.
    rewrite Z.pow_0_r, Z.mul_1_r.
    assert (Hpk : 0 < 10 ^ (p - n)) by (apply Z.pow_pos_nonneg; lia).
    assert (Hsum : 10 ^ n * 10 ^ (p - n) = 10 ^ p)
      by (rewrite <- Z.pow_add_r by lia; f_equal; lia).
    assert (Hp : 10 ^ p <= 10 ^ 308) by (apply Z.pow_le_mono_r; lia).
    nia.
  - replace (Z.max 0 (- (p - n))) with (n - p) by lia.
    replace (Z.max 0 (p - n)) with 0 by lia.
    rewrite Z.pow_0_r, Z.mul_1_r.
    assert (Hle : 10 ^ n <= 10 ^ 308 * 10 ^ (n - p)).
    { destruct (Z.le_gt_cases 0 p) as [Hp|Hp].
      - replace n with (p + (n - p)) at 1 by lia. rewrite Z.pow_add_r by lia.
        apply Z.mul_le_mono_nonneg_r; [apply Z.pow_nonneg; lia|].
        apply Z.pow_le_mono_r; lia.
      - assert (10 ^ n <= 10 ^ (n - p)) by (apply Z.pow_le_mono_r; lia).
        assert (0 < 10 ^ (n - p)) by (apply Z.pow_pos_nonneg; lia).
        nia. }
    assert (Hpk : 0 < 10 ^ (n - p)) by (apply Z.pow_pos_nonneg; lia).
    nia.
Qed.

(** A value of the pattern of at most 800 digits is judged on its exact
    value. *)
Lemma ParseFloat_literal (sign int frac exp : string) :
  sign = EmptyString \/ sign = "-" \/ sign = "+" ->
  digits int -> fraction frac -> exponent exp ->
  (String.length int + String.length (fracDigits frac) <= 800)%nat ->
  strconv.ParseFloat (sign ++ int ++ frac ++ exp) 64
  = if literalExceeds int frac exp then Some strconv.ErrRange else None.
Proof.
  intros Hsign Hint Hfrac Hexp Hlen.
  destruct (set_literal int frac exp Hint Hfrac Hexp) as (b & Hset & _ & _ & _ & Hexact).
  pose proof (Hset EmptyString (or_introl eq_refl)) as Hb.
  change (EmptyString ++ int ++ frac ++ exp) with (int ++ frac ++ exp) in Hb.
  rewrite (ParseFloat_signed_literal sign int frac exp b Hsign Hint Hfrac Hexp Hb).
  destruct (Hexact Hlen) as [Ed Edp].
  unfold strconv.overflows, literalExceeds. now rewrite Ed, Edp.
Qed.

(** A value of the pattern without exponent and with at most 308 digits
    before the point is in range, however long its fraction. *)
Lemma plain_decimal_in_range (sign int frac : string) :
  sign = EmptyString \/ sign = "-" \/ sign = "+" ->
  digits int -> fraction frac -> (String.length int <= 308)%nat ->
  strconv.ParseFloat (sign ++ int ++ frac) 64 = None.
Proof.
  intros Hsign Hint Hfrac Hlen.
  destruct (set_literal int frac EmptyString Hint Hfrac (or_introl eq_refl))
    as (b & Hset & Hnd & Hd & Hdp & _).
  pose proof (Hset EmptyString (or_introl eq_refl)) as Hb.
  change (EmptyString ++ int ++ frac ++ EmptyString) with (int ++ frac ++ EmptyString) in Hb.
  pose proof (ParseFloat_signed_literal sign int frac EmptyString b Hsign Hint Hfrac
                (or_introl eq_refl) Hb) as Hparse.
  rewrite append_nil_r in Hparse. rewrite Hparse.
  rewrite overflows_small; [reflexivity|lia|exact Hd|].
  simpl expValue in Hdp. lia.
Qed.

Lemma scanExp_exact (ds : string) :
  allDigits ds = true ->
  forall e us,
    0 <= e ->
    (e + 1) * 10 ^ Z.of_nat (String.length ds) <= 10 ^ 5 ->
    fst (fst (strconv.scanExp ds e us)) = digitsValue e ds.
Proof.
  induction ds as [|c ds IH]; intros Hds e us He Hle; [reflexivity|].
  simpl in Hds. apply andb_true_iff in Hds as [Hc Hds].
  pose proof (digit_range c Hc) as Hd.
  simpl String.length in Hle.
  rewrite Nat2Z.inj_succ, Z.pow_succ_r in Hle by lia.
  assert (Hpow : 1 <= 10 ^ Z.of_nat (String.length ds))
    by (pose proof (Z.pow_pos_nonneg 10 (Z.of_nat (String.length ds))); lia).
  change (10 ^ 5) with 100000 in *.
  simpl strconv.scanExp. rewrite Hc.
  assert (Hlt : (e <? 10000) = true) by (apply Z.ltb_lt; nia).
  rewrite Hlt. simpl digitsValue. apply IH; [exact Hds|lia|nia].
Qed.

(** An exponent of at most five digits is read exactly. *)
Lemma cappedExp_exact (ds : string) :
  allDigits ds = true -> (String.length ds <= 5)%nat ->
  cappedExp ds = digitsValue 0 ds.
Proof.
  intros Hds Hlen. unfold cappedExp. apply scanExp_exact; [exact Hds|lia|].
  rewrite Z.add_0_l, Z.mul_1_l. apply Z.pow_le_mono_r; lia.
Qed.

Section NumericCheck.

Context {C : Collaborators}.

(** C7 (as the code has it).  For a raw value of the pattern with at most
    800 digits, integer part and fraction together, the integer or number
    check adds no violation when the value is, in magnitude, below
    [2^1024 - 2^970], and one violation when it is not:
    [strconv.ParseFloat] reports a range error for a literal that rounds to
    an infinite float64 (of a longer literal it judges the 800 digits it
    keeps), and no other error for a value of the pattern, however long.  A
    value without exponent and with at most 308 digits before the point is
    always in range.  Any value [ParseFloat] rejects, "abc" for one, adds
    exactly one violation, which records the lower-cased value. *)
Theorem numeric_check (p : v3.Parameter_) (sch : ptr base.Schema) (cookie : http.Cookie)
  (acc : list ValidationError) (ty : string) :
  ty = helpers.Integer \/ ty = helpers.Number ->
  let violation := InvalidCookieParamNumber p (ToLower (http.Value cookie)) sch in
  (forall sign int frac exp,
     http.Value cookie = sign ++ int ++ frac ++ exp ->
     sign = EmptyString \/ sign = "-" ->
     digits int -> fraction frac -> exponent exp ->
     (String.length int + String.length (fracDigits frac) <= 800)%nat ->
     typeCase p sch cookie acc ty
     = Returned (if literalExceeds int frac exp then (acc ++ [violation])%list else acc))
  /\ (forall sign int frac,
        http.Value cookie = sign ++ int ++ frac ->
        sign = EmptyString \/ sign = "-" ->
        digits int -> fraction frac -> (String.length int <= 308)%nat ->
        typeCase p sch cookie acc ty = Returned acc)
  /\ (NumberPattern (http.Value cookie) ->
      strconv.ParseFloat (http.Value cookie) 64 = None
      \/ strconv.ParseFloat (http.Value cookie) 64 = Some strconv.ErrRange)
  /\ (strconv.ParseFloat (http.Value cookie) 64 <> None ->
      typeCase p sch cookie acc ty = Returned (acc ++ [violation])%list)
  /\ (http.Value cookie = "abc" ->
      typeCase p sch cookie acc ty
      = Returned (acc ++ [InvalidCookieParamNumber p "abc" sch])%list).
Proof.
  intros Hty violation. rewrite (typeCase_numeric _ _ _ _ _ Hty).
  assert (Hplus : forall sign : string,
            sign = EmptyString \/ sign = "-" ->
            sign = EmptyString \/ sign = "-" \/ sign = "+") by tauto.
  split; [|split; [|split; [|split]]].
  - intros sign int frac exp Hval Hsign Hint Hfrac Hexp Hlen.
    rewrite Hval at 1.
    rewrite (ParseFloat_literal sign int frac exp (Hplus _ Hsign) Hint Hfrac Hexp Hlen).
    now destruct (literalExceeds int frac exp).
  - intros sign int frac Hval Hsign Hint Hfrac Hlen.
    rewrite Hval at 1.
    now rewrite (plain_decimal_in_range sign int frac (Hplus _ Hsign) Hint Hfrac Hlen).
  - intros (sign & int & frac & exp & -> & Hsign & Hint & Hfrac & Hexp).
    destruct (set_literal int frac exp Hint Hfrac Hexp) as (b & Hset & _).
    pose proof (Hset EmptyString (or_introl eq_refl)) as Hb.
    change (EmptyString ++ int ++ frac ++ exp) with (int ++ frac ++ exp) in Hb.
    rewrite (ParseFloat_signed_literal sign int frac exp b (Hplus _ Hsign) Hint Hfrac Hexp Hb).
    destruct (strconv.overflows 64 b); [now right|now left].
  - intros Herr. destruct (strconv.ParseFloat (http.Value cookie) 64);
      [reflexivity|congruence].
  - intros Hval. subst violation. rewrite Hval. reflexivity.
Qed.

End NumericCheck.

(** "1e400" is a value of the pattern, and the integer check rejects it. *)
Lemma numeric_check_rejects_1e400 :
  NumberPattern "1e400"
  /\ typeCase (C := SpecModel.demo)
       (SpecModel.cookieParam "n" (SpecModel.schemaOf [helpers.Integer]))
       (Some (SpecModel.schemaOf [helpers.Integer]))
       (SpecModel.cookie "n" "1e400") [] helpers.Integer
     = Returned
         [SpecModel.ParamViolation
            (SpecModel.cookieParam "n" (SpecModel.schemaOf [helpers.Integer]))
            "1e400" SpecModel.NotNumber
            (Some (SpecModel.schemaOf [helpers.Integer]))].
Proof.
  split; [|reflexivity].
  exists EmptyString, "1", EmptyString, "e400".
  repeat split; try discriminate; try (now left).
  right. exists "e", EmptyString, "400".
  repeat split; try discriminate; now left.
Qed.

Lemma numeric_check_witness :
  typeCase (C := SpecModel.demo)
    (SpecModel.cookieParam "n" (SpecModel.schemaOf [helpers.Number]))
    (Some (SpecModel.schemaOf [helpers.Number]))
    (SpecModel.cookie "n" "-12.5e-3") [] helpers.Number
  = Returned [].
Proof.
  apply (proj1 (numeric_check (C := SpecModel.demo)
                  (SpecModel.cookieParam "n" (SpecModel.schemaOf [helpers.Number]))
                  (Some (SpecModel.schemaOf [helpers.Number]))
                  (SpecModel.cookie "n" "-12.5e-3") [] helpers.Number
                  (or_intror eq_refl))
           "-" "12" ".5" "e-3").
  - reflexivity.
  - now right.
  - split; [discriminate|reflexivity].
  - right. exists "5". repeat split. discriminate.
  - right. exists "e", "-", "3". repeat split; try discriminate; auto.
  - simpl. lia.
Defined.

(** * More of the call *)

(** ** When the call panics *)
Section Panics.

Context {C : Collaborators}.

Lemma joinAll_Panicked_iff {T : Type} (l : list (outcome (list T))) :
  joinAll l = Panicked <-> List.In Panicked l.
Proof.
  split; [|apply joinAll_Panicked].
  induction l as [|m l IH]; simpl; [discriminate|].
  destruct m as [x|]; simpl; [|now left].
  destruct (joinAll l); simpl; [discriminate|]. intros _. right. now apply IH.
Qed.

Lemma checks_In_iff (params : list v3.Parameter_) (cookies : list http.Cookie)
  (m : outcome (list ValidationError)) :
  List.In m (checks params cookies)
  <-> exists p cookie,
        List.In p params /\ v3.In p = helpers.Cookie
        /\ List.In cookie cookies /\ http.Name cookie = v3.Name p
        /\ m = cookieErrors p cookie.
Proof.
  unfold checks, cookieParams, matching. rewrite in_flat_map. split.
  - intros (p & Hp & Hm). apply filter_In in Hp as [Hp Hin].
    apply in_map_iff in Hm as (c & <- & Hc). apply filter_In in Hc as [Hc Hname].
    exists p, c. rewrite String.eqb_eq in Hin, Hname. auto.
  - intros (p & c & Hp & Hin & Hc & Hname & ->). exists p. split.
    + apply filter_In. split; [exact Hp|now apply String.eqb_eq].
    + apply in_map, filter_In. split; [exact Hc|now apply String.eqb_eq].
Qed.

(** The one check that can panic on a schema that is there. *)
Lemma tagErrors_Panicked (p : v3.Parameter_) (s : base.Schema) (cookie : http.Cookie)
  (ty : string) :
  tagErrors p (Some s) cookie ty = Panicked
  <-> ty = helpers.Array /\ v3.IsExploded p = false /\ base.Items s = None.
Proof.
  unfold tagErrors. split.
  - unfold typeCase.
    destruct (String.eqb ty helpers.Integer || String.eqb ty helpers.Number);
      [destruct (strconv.ParseFloat _ _); discriminate|].
    destruct (String.eqb ty helpers.Boolean);
      [destruct (strconv.ParseBool _) as [b [e|]]; discriminate|].
    destruct (String.eqb ty helpers.Object);
      [destruct (negb _); discriminate|].
    destruct (String.eqb_spec ty helpers.Array) as [->|_].
    + destruct (v3.IsExploded p); simpl; [discriminate|].
      destruct (base.Items s) as [items|]; simpl; [|auto].
      destruct (base.IsA items); discriminate.
    + destruct (String.eqb ty helpers.String); [|discriminate].
      simpl. destruct (base.Enum s) as [enum|]; [|discriminate].
      destruct (negb _); discriminate.
  - intros (-> & Hexp & Hitems). now rewrite typeCase_array, Hexp, Hitems.
Qed.

Lemma cookieErrors_Panicked (p : v3.Parameter_) (cookie : http.Cookie) :
  cookieErrors p cookie = Panicked <-> panicking p = true.
Proof.
  unfold cookieErrors, tagChecks, panicking.
  destruct (paramSchema p) as [s|]; [|simpl; tauto].
  rewrite joinAll_Panicked_iff, in_map_iff.
  rewrite !andb_true_iff, existsb_exists, negb_true_iff. split.
  - intros (ty & Hty & Hin).
    apply tagErrors_Panicked in Hty as (-> & Hexp & ->).
    repeat split; [|exact Hexp]. exists helpers.Array. split; [exact Hin|reflexivity].
  - intros [[(ty & Hin & Heq) Hexp] Hitems].
    apply String.eqb_eq in Heq. subst ty.
    exists helpers.Array. split; [|exact Hin].
    apply tagErrors_Panicked. repeat split; [exact Hexp|].
    now destruct (base.Items s).
Qed.

(** X1.  The call panics exactly when the operation resolves and some
    cookie of the request carries the name of a cookie parameter that has
    no schema, or that is not exploded and declares the array tag without
    items; in every other case it returns. *)
Theorem panics_exactly_when (v : paramValidator) (request : http.Request) :
  snd (ValidateCookieParams v request) = Panicked
  <-> exists pathItem p cookie,
        FindPath request (document v) = (Some pathItem, None)
        /\ List.In p (ExtractParamsForOperation request pathItem)
        /\ v3.In p = helpers.Cookie
        /\ List.In cookie (http.Cookies request)
        /\ http.Name cookie = v3.Name p
        /\ panicking p = true.
Proof.
  rewrite ValidateCookieParams_checks.
  destruct (FindPath request (document v)) as [[pathItem|] [errs|]].
  - split; [discriminate|]. intros (pi & p & c & H & _). discriminate H.
  - split.
    + intros H.
      destruct (joinAll _) as [errs|] eqn:Hjoin; [discriminate|].
      apply joinAll_Panicked_iff, checks_In_iff in Hjoin
        as (p & c & Hp & Hin & Hc & Hname & Hm).
      exists pathItem, p, c. symmetry in Hm. apply cookieErrors_Panicked in Hm.
      repeat split; assumption.
    + intros (pi & p & c & [= <-] & Hp & Hin & Hc & Hname & Hpanic).
      rewrite joinAll_Panicked; [reflexivity|].
      apply checks_In_iff. exists p, c. repeat split; auto.
      symmetry. now apply cookieErrors_Panicked.
  - split; [discriminate|]. intros (pi & p & c & H & _). discriminate H.
  - split; [discriminate|]. intros (pi & p & c & H & _). discriminate H.
Qed.

End Panics.

(** ** What the loops skip *)
Section Skipped.

Context {C : Collaborators}.

(** X2.  Only the parameters whose location is exactly "cookie" are
    looked at: the parameters of other locations can be dropped from the
    operation without any change to what the loops collect, whatever their
    names and schemas are. *)
Theorem other_locations_ignored (request : http.Request) (params : list v3.Parameter_)
  (acc : list ValidationError) :
  forEach params acc (paramCase request)
  = forEach (cookieParams params) acc (paramCase request).
Proof.
  revert acc. unfold cookieParams.
  induction params as [|p params IH]; intros acc; [reflexivity|].
  simpl. destruct (String.eqb (v3.In p) helpers.Cookie) eqn:Hin.
  - simpl. destruct (paramCase request acc p); simpl; [apply IH|reflexivity].
  - unfold paramCase at 1. rewrite Hin. simpl. apply IH.
Qed.

Lemma typeCase_unknown (p : v3.Parameter_) (sch : ptr base.Schema) (cookie : http.Cookie)
  (acc : list ValidationError) (ty : string) :
  knownTag ty = false -> typeCase p sch cookie acc ty = Returned acc.
Proof.
  unfold knownTag, typeCase. rewrite !orb_false_iff.
  intros [[[[[H1 H2] H3] H4] H5] H6]. now rewrite H1, H2, H3, H4, H5, H6.
Qed.

(** X3.  A declared type the switch has no case for ("null", or a tag in
    another case) is passed over: the checks of a type list are those of
    its integer, number, boolean, object, array and string tags. *)
Theorem unknown_tags_ignored (p : v3.Parameter_) (sch : ptr base.Schema)
  (cookie : http.Cookie) (types : list string) (acc : list ValidationError) :
  forEach types acc (typeCase p sch cookie)
  = forEach (filter knownTag types) acc (typeCase p sch cookie).
Proof.
  revert acc. induction types as [|ty types IH]; intros acc; [reflexivity|].
  simpl. destruct (knownTag ty) eqn:Hty.
  - simpl. destruct (typeCase p sch cookie acc ty); simpl; [apply IH|reflexivity].
  - rewrite (typeCase_unknown _ _ _ _ _ Hty). simpl. apply IH.
Qed.

End Skipped.

(** ** Parts of an operation, and the order of its parts *)
Section Composition.

Context {C : Collaborators}.

Lemma checks_app (ps1 ps2 : list v3.Parameter_) (cookies : list http.Cookie) :
  checks (ps1 ++ ps2) cookies = (checks ps1 cookies ++ checks ps2 cookies)%list.
Proof.
  unfold checks, cookieParams. now rewrite filter_app, flat_map_app.
Qed.

Lemma finish_app (e1 e2 : list ValidationError) :
  fst (finish (e1 ++ e2)) = fst (finish e1) && fst (finish e2).
Proof.
  unfold finish. destruct e1; [destruct e2|]; reflexivity.
Qed.

(** X4.  Validating the parameters [ps1 ++ ps2] collects the violations
    of [ps1] followed by those of [ps2], each as validated on their own,
    and panics when one of the two does; so the whole passes exactly when
    both parts pass. *)
Theorem parameters_compose (request : http.Request) (ps1 ps2 : list v3.Parameter_) :
  forEach (ps1 ++ ps2) [] (paramCase request)
  = (e1 <- forEach ps1 [] (paramCase request) ;;
     e2 <- forEach ps2 [] (paramCase request) ;;
     Returned (e1 ++ e2)%list)
  /\ (forall e1 e2,
        forEach ps1 [] (paramCase request) = Returned e1 ->
        forEach ps2 [] (paramCase request) = Returned e2 ->
        verdict (forEach (ps1 ++ ps2) [] (paramCase request))
        = Some (fst (finish e1) && fst (finish e2))).
Proof.
  assert (H : forEach (ps1 ++ ps2) [] (paramCase request)
              = (e1 <- forEach ps1 [] (paramCase request) ;;
                 e2 <- forEach ps2 [] (paramCase request) ;;
                 Returned (e1 ++ e2)%list))
    by (rewrite !forEach_params, checks_app; apply joinAll_app).
  split; [exact H|].
  intros e1 e2 H1 H2. rewrite H, H1, H2. simpl. now rewrite finish_app.
Qed.

Lemma verdict_joinAll (l : list (outcome (list ValidationError))) :
  verdict (joinAll l)
  = if existsb isPanicked l then None else Some (forallb foundNothing l).
Proof.
  induction l as [|m l IH]; [reflexivity|].
  simpl. destruct m as [x|]; simpl; [|reflexivity].
  destruct (joinAll l) as [xs|]; simpl in *.
  - destruct (existsb isPanicked l); [discriminate|].
    injection IH as IH. rewrite <- IH. f_equal.
    unfold finish. destruct x; reflexivity.
  - destruct (existsb isPanicked l); [reflexivity|discriminate].
Qed.

Lemma existsb_same {T : Type} (f : T -> bool) (l l' : list T) :
  (forall x, List.In x l <-> List.In x l') -> existsb f l = existsb f l'.
Proof.
  intros H. apply eq_true_iff_eq. rewrite !existsb_exists.
  split; intros (x & Hx & Hf); exists x; split; auto; now apply H.
Qed.

Lemma forallb_same {T : Type} (f : T -> bool) (l l' : list T) :
  (forall x, List.In x l <-> List.In x l') -> forallb f l = forallb f l'.
Proof.
  intros H. apply eq_true_iff_eq. rewrite !forallb_forall.
  split; intros Hall x Hx; apply Hall; now apply H.
Qed.

(** X5.  Whether the loops panic, pass or fail depends on which cookie
    parameters and which cookies there are, not on their order or on how
    often each occurs. *)
Theorem verdict_ignores_order (request request' : http.Request)
  (params params' : list v3.Parameter_) :
  (forall p, List.In p params <-> List.In p params') ->
  (forall c, List.In c (http.Cookies request) <-> List.In c (http.Cookies request')) ->
  verdict (forEach params [] (paramCase request))
  = verdict (forEach params' [] (paramCase request')).
Proof.
  intros Hp Hc. rewrite !forEach_params, !verdict_joinAll.
  assert (Hsame : forall m,
            List.In m (checks params (http.Cookies request))
            <-> List.In m (checks params' (http.Cookies request'))).
  { intros m. rewrite !checks_In_iff.
    split; intros (p & c & H1 & H2 & H3 & H4 & H5); exists p, c;
      repeat split; auto; first [now apply Hp | now apply Hc]. }
  now rewrite (existsb_same _ _ _ Hsame), (forallb_same _ _ _ Hsame).
Qed.

End Composition.

(** ** Tags that repeat *)
Section Repeats.

Context {C : Collaborators}.

(** X6.  The integer and the number tag run the same test, once per
    occurrence: for a schema that lists only these two tags, a cookie whose
    value parses yields no violation, and one whose value does not parse
    yields as many violations, all alike, as the type list is long. *)
Theorem numeric_tags_repeat (p : v3.Parameter_) (s : base.Schema) (cookie : http.Cookie) :
  paramSchema p = Some s ->
  (forall ty, List.In ty (base.Type_ s) -> ty = helpers.Integer \/ ty = helpers.Number) ->
  cookieErrors p cookie
  = Returned
      (if parses (http.Value cookie) then []
       else repeat (InvalidCookieParamNumber p (ToLower (http.Value cookie)) (Some s))
              (length (base.Type_ s))).
Proof.
  intros Hsch Htags. unfold cookieErrors, tagChecks. rewrite Hsch.
  induction (base.Type_ s) as [|ty types IH].
  - simpl. now destruct (parses _).
  - simpl. rewrite IH by (intros; apply Htags; now right).
    unfold tagErrors. rewrite (typeCase_numeric _ _ _ _ _ (Htags ty (or_introl eq_refl))).
    unfold parses. destruct (strconv.ParseFloat (http.Value cookie) 64); reflexivity.
Qed.

End Repeats.

(** ** White space and the scalar checks *)

Lemma noSpace_app (a b : string) : noSpace (a ++ b) = noSpace a && noSpace b.
Proof.
  induction a as [|c a IH]; simpl; [reflexivity|]. now rewrite IH, andb_assoc.
Qed.

Lemma digit_no_space (c : ascii) : isDigit c = true -> strings.isSpace1 c = false.
Proof. by_bits c. Qed.

Lemma hexLetter_no_space (c : ascii) :
  strconv.isHexLetter c = true -> strings.isSpace1 c = false.
Proof. by_bits c. Qed.

Lemma lower_no_space (c : ascii) (n : Z) :
  n = 101 \/ n = 112 \/ n = 120 ->
  (strconv.lower c =? n) = true -> strings.isSpace1 c = false.
Proof. intros [->|[->| ->]]; by_bits c. Qed.

Lemma eqb_no_space (c d : ascii) :
  strings.isSpace1 d = false -> Ascii.eqb c d = true -> strings.isSpace1 c = false.
Proof. intros Hd H. apply Ascii.eqb_eq in H. now subst. Qed.

(** What the digit loop reads holds no white space. *)
Lemma scanDigits_no_space (hex : bool) (s : string) :
  forall st st' rest,
    strconv.scanDigits hex s st = (st', rest) ->
    exists read, s = read ++ rest /\ noSpace read = true.
Proof.
  induction s as [|c r IH]; intros st st' rest H.
  - injection H as _ <-. now exists EmptyString.
  - assert (Hstop : (st, String c r) = (st', rest) ->
                    exists read, String c r = read ++ rest /\ noSpace read = true)
      by (intros [= _ <-]; now exists EmptyString).
    assert (Hgo : forall st1, strings.isSpace1 c = false ->
                    strconv.scanDigits hex r st1 = (st', rest) ->
                    exists read, String c r = read ++ rest /\ noSpace read = true).
    { intros st1 Hc H1. destruct (IH _ _ _ H1) as (read & -> & Hread).
      exists (String c read). split; [reflexivity|]. simpl. now rewrite Hc. }
    simpl in H.
    destruct (Ascii.eqb c "_") eqn:E1; [now eapply Hgo; [eapply eqb_no_space; eauto|eauto]|].
    destruct (Ascii.eqb c ".") eqn:E2.
    { destruct (strconv.sawdot st); [now apply Hstop|].
      eapply Hgo; [eapply eqb_no_space; eauto|eauto]. reflexivity. }
    destruct (isDigit c) eqn:E3.
    { pose proof (digit_no_space c E3).
      destruct (Ascii.eqb c "0" && (strconv.nd st =? 0)); eapply Hgo; eauto. }
    destruct (hex && strconv.isHexLetter c) eqn:E4; [|now apply Hstop].
    apply andb_true_iff in E4 as [_ E4].
    eapply Hgo; [now apply hexLetter_no_space|eauto].
Qed.

Lemma scanExp_no_space (s : string) :
  forall e us e' us',
    strconv.scanExp s e us = (e', us', EmptyString) -> noSpace s = true.
Proof.
  induction s as [|c r IH]; intros e us e' us' H; [reflexivity|].
  simpl in H. simpl.
  destruct (isDigit c) eqn:E1.
  - rewrite (digit_no_space c E1). simpl. eapply IH; eauto.
  - destruct (Ascii.eqb c "_") eqn:E2; [|discriminate].
    rewrite (eqb_no_space c "_" eq_refl E2). simpl. eapply IH; eauto.
Qed.

Lemma readExponent_no_space (hex : bool) (dp1 : Z) (us : bool) (s : string) :
  forall dp2 us',
    strconv.readExponent hex dp1 us s = Some (dp2, us', EmptyString) ->
    noSpace s = true.
Proof.
  intros dp2 us' H. unfold strconv.readExponent in H.
  destruct s as [|c r]; [reflexivity|].
  destruct (strconv.lower c =? (if hex then 112 else 101)) eqn:Ec.
  - assert (Hc : strings.isSpace1 c = false)
      by (destruct hex;
          [apply (lower_no_space c 112)|apply (lower_no_space c 101)]; auto).
    destruct r as [|sg r']; [discriminate|].
    assert (Hscan : forall esign s4,
              match s4 with
              | String d _ =>
                  if isDigit d
                  then let '(e, us'0, rest) := strconv.scanExp s4 0 us in
                       Some (dp1 + e * esign, us'0, rest)
                  else None
              | EmptyString => None
              end = Some (dp2, us', EmptyString) -> noSpace s4 = true).
    { intros esign s4 H4. destruct s4 as [|d s4']; [discriminate|].
      destruct (isDigit d); [|discriminate].
      destruct (strconv.scanExp (String d s4') 0 us) as [[e us0] rest] eqn:Hs.
      injection H4 as _ _ ->. eapply scanExp_no_space; eauto. }
    simpl. rewrite Hc. simpl.
    destruct (Ascii.eqb sg "+") eqn:Ep.
    { rewrite (eqb_no_space sg "+" eq_refl Ep). simpl. eapply Hscan; eauto. }
    destruct (Ascii.eqb sg "-") eqn:Em.
    { rewrite (eqb_no_space sg "-" eq_refl Em). simpl. eapply Hscan; eauto. }
    change (negb (strings.isSpace1 sg) && noSpace r') with (noSpace (String sg r')).
    eapply Hscan; eauto.
  - destruct hex; [discriminate|]. injection H as _ _ H. discriminate H.
Qed.

Lemma hexPrefix_no_space (s : string) :
  exists read, s = read ++ snd (strconv.hexPrefix s) /\ noSpace read = true.
Proof.
  unfold strconv.hexPrefix.
  destruct s as [|a [|b [|c r]]]; try (now exists EmptyString).
  destruct (Ascii.eqb a "0") eqn:Ea; simpl; [|now exists EmptyString].
  destruct (strconv.lower b =? 120) eqn:Eb; simpl; [|now exists EmptyString].
  exists (String a (String b EmptyString)). split; [reflexivity|]. simpl.
  rewrite (eqb_no_space a "0" eq_refl Ea).
  now rewrite (lower_no_space b 120 (or_intror (or_intror eq_refl)) Eb).
Qed.

Lemma readFloat_no_space (s : string) :
  forall mant exp hex,
    strconv.readFloat s = Some (mant, exp, hex, EmptyString) -> noSpace s = true.
Proof.
  intros mant exp hex H. unfold strconv.readFloat in H.
  destruct s as [|c0 r0]; [discriminate|].
  set (s1 := if Ascii.eqb c0 "+" || Ascii.eqb c0 "-" then r0 else String c0 r0) in H.
  assert (Hs1 : noSpace s1 = true -> noSpace (String c0 r0) = true).
  { subst s1. destruct (Ascii.eqb c0 "+") eqn:Ep; simpl.
    - intros ->. now rewrite (eqb_no_space c0 "+" eq_refl Ep).
    - destruct (Ascii.eqb c0 "-") eqn:Em; simpl; [|auto].
      intros ->. now rewrite (eqb_no_space c0 "-" eq_refl Em). }
  apply Hs1. clear Hs1.
  destruct (hexPrefix_no_space s1) as (pre & Hpre & Hpre').
  destruct (strconv.hexPrefix s1) as [hx s2]. simpl in Hpre.
  destruct (strconv.scanDigits hx s2 strconv.scan0) as [st s3] eqn:Hscan.
  destruct (scanDigits_no_space _ _ _ _ _ Hscan) as (read & Hread & Hread').
  destruct (negb (strconv.sawdigits st)); [discriminate|].
  destruct (strconv.readExponent _ _ _ s3) as [[[dp2 us] rest]|] eqn:Hexp; [|discriminate].
  destruct (us && negb _); [discriminate|].
  injection H as _ _ _ ->.
  apply readExponent_no_space in Hexp.
  rewrite Hpre, Hread, !noSpace_app, Hpre', Hread', Hexp. reflexivity.
Qed.

Lemma lowerByte_space (c : ascii) :
  strings.isSpace1 (strings.lowerByte c) = false -> strings.isSpace1 c = false.
Proof. by_bits c. Qed.

Lemma commonPrefix_le (s prefix : string) :
  (strconv.commonPrefixLenIgnoreCase s prefix <= String.length s)%nat.
Proof.
  revert prefix. induction s as [|c s IH]; intros [|d prefix]; simpl; try lia.
  destruct (Ascii.eqb _ d); [|lia]. specialize (IH prefix). lia.
Qed.

Lemma commonPrefix_no_space (s prefix : string) :
  noSpace prefix = true ->
  strconv.commonPrefixLenIgnoreCase s prefix = String.length s ->
  noSpace s = true.
Proof.
  revert prefix. induction s as [|c s IH]; intros [|d prefix] Hp H;
    try reflexivity; try discriminate.
  simpl in *. apply andb_true_iff in Hp as [Hd Hp].
  destruct (Ascii.eqb (strings.lowerByte c) d) eqn:E; [|discriminate].
  apply Ascii.eqb_eq in E. subst d. apply negb_true_iff in Hd.
  rewrite (lowerByte_space c Hd). simpl. apply (IH prefix Hp). lia.
Qed.

Lemma infinityLen_no_space (s : string) (n : nat) :
  strconv.infinityLen s = Some n -> n = String.length s -> noSpace s = true.
Proof.
  unfold strconv.infinityLen. intros H Hn.
  pose proof (commonPrefix_le s "infinity") as Hle.
  apply (commonPrefix_no_space s "infinity" eq_refl).
  destruct ((3 <? _) && (_ <? 8))%nat eqn:E.
  - apply andb_true_iff in E as [E _]. apply Nat.ltb_lt in E.
    simpl in H. injection H as H. lia.
  - destruct ((_ =? 3) || (_ =? 8))%nat; [|discriminate]. injection H as H. lia.
Qed.

Lemma special_no_space (s : string) (n : nat) :
  strconv.special s = Some n -> n = String.length s -> noSpace s = true.
Proof.
  unfold strconv.special. destruct s as [|c r]; [discriminate|].
  destruct (Ascii.eqb c "+" || Ascii.eqb c "-") eqn:Es.
  - destruct (strconv.infinityLen r) as [m|] eqn:Hm; [|discriminate].
    intros [= <-] Hn. simpl in Hn. injection Hn as Hn.
    simpl. rewrite (infinityLen_no_space r m Hm Hn), andb_true_r.
    apply negb_true_iff. apply orb_true_iff in Es as [E|E];
      [apply (eqb_no_space c "+" eq_refl E)|apply (eqb_no_space c "-" eq_refl E)].
  - destruct (Ascii.eqb c "i" || Ascii.eqb c "I"); [apply infinityLen_no_space|].
    destruct (Ascii.eqb c "n" || Ascii.eqb c "N"); [|discriminate].
    destruct (_ =? 3)%nat eqn:E; [|discriminate].
    apply Nat.eqb_eq in E. intros [= <-] Hn.
    apply (commonPrefix_no_space _ "nan" eq_refl). lia.
Qed.

(** A value [strconv.ParseFloat] accepts holds no ASCII white space. *)
Lemma ParseFloat_no_space (s : string) :
  strconv.ParseFloat s 64 = None -> noSpace s = true.
Proof.
  unfold strconv.ParseFloat.
  destruct (strconv.special s) as [n|] eqn:Hsp.
  - destruct (Nat.eqb_spec n (String.length s)) as [Hn|]; [|discriminate].
    intros _. exact (special_no_space s n Hsp Hn).
  - destruct (strconv.readFloat s) as [[[[mant exp] hex] rest]|] eqn:Hrd; [|discriminate].
    destruct rest; [|discriminate]. intros _. exact (readFloat_no_space s _ _ _ Hrd).
Qed.

Lemma ParseBool_no_space (s : string) :
  snd (strconv.ParseBool s) = None -> noSpace s = true.
Proof.
  intros H. apply ParseBool_accepts in H.
  repeat (destruct H as [<-|H]; [reflexivity|]). destruct H.
Qed.

Section WhiteSpace.

Context {C : Collaborators}.

(** X7.  The integer, number and boolean checks do not trim: a cookie
    value that holds a tab, a line feed, a vertical tab, a form feed, a
    carriage return or a space anywhere gets one violation from each of
    them; so does the empty value. *)
Theorem scalar_checks_reject_white_space (p : v3.Parameter_) (sch : ptr base.Schema)
  (cookie : http.Cookie) (acc : list ValidationError) :
  noSpace (http.Value cookie) = false \/ http.Value cookie = EmptyString ->
  (forall ty,
     ty = helpers.Integer \/ ty = helpers.Number ->
     typeCase p sch cookie acc ty
     = Returned (acc ++ [InvalidCookieParamNumber p (ToLower (http.Value cookie)) sch])%list)
  /\ typeCase p sch cookie acc helpers.Boolean
     = Returned (acc ++ [IncorrectCookieParamBool p (ToLower (http.Value cookie)) sch])%list.
Proof.
  intros Hv. split.
  - intros ty Hty. rewrite (typeCase_numeric _ _ _ _ _ Hty).
    destruct (strconv.ParseFloat (http.Value cookie) 64) eqn:E; [reflexivity|].
    destruct Hv as [Hv|Hv].
    + apply ParseFloat_no_space in E. congruence.
    + rewrite Hv in E. discriminate E.
  - rewrite typeCase_boolean.
    destruct (snd (strconv.ParseBool (http.Value cookie))) eqn:E; [reflexivity|].
    destruct Hv as [Hv|Hv].
    + apply ParseBool_no_space in E. congruence.
    + rewrite Hv in E. discriminate E.
Qed.

End WhiteSpace.

(** ** White space and the enum check *)

Lemma append_assoc (a b c : string) : (a ++ b) ++ c = a ++ b ++ c.
Proof. induction a as [|x a IH]; simpl; [reflexivity|now rewrite IH]. Qed.

Lemma rev_app (a b : string) : strings.rev (a ++ b) = strings.rev b ++ strings.rev a.
Proof.
  induction a as [|x a IH]; simpl.
  - now rewrite append_nil_r.
  - now rewrite IH, append_assoc.
Qed.

Lemma rev_involutive (s : string) : strings.rev (strings.rev s) = s.
Proof.
  induction s as [|x s IH]; simpl; [reflexivity|].
  now rewrite rev_app, IH.
Qed.

Lemma allSpace_rev (s : string) : allSpace (strings.rev s) = allSpace s.
Proof.
  assert (Happ : forall a b, allSpace (a ++ b) = allSpace a && allSpace b).
  { induction a as [|x a IH]; intros b; simpl; [reflexivity|].
    now rewrite IH, andb_assoc. }
  induction s as [|x s IH]; simpl; [reflexivity|].
  rewrite Happ, IH. simpl. rewrite andb_true_r. apply andb_comm.
Qed.

Lemma string_length_ind (P : string -> Prop) :
  (forall s, (forall r, (String.length r < String.length s)%nat -> P r) -> P s) ->
  forall s, P s.
Proof.
  intros H s.
  assert (Hn : forall n r, (String.length r < n)%nat -> P r).
  { induction n as [|n IH]; intros r Hr; [lia|].
    apply H. intros r' Hr'. apply IH. lia. }
  apply (Hn (S (String.length s))). lia.
Qed.

(** An ASCII white-space byte is never the second or third byte of a
    white-space rune. *)
Lemma space1_not_second (a b : ascii) :
  strings.isSpace1 b = true -> strings.isSpace2 a b = false.
Proof.
  unfold strings.isSpace2. by_bits b; intros _; simpl; apply andb_false_r.
Qed.

Lemma space1_not_middle (a b c : ascii) :
  strings.isSpace1 b = true -> strings.isSpace3 a b c = false.
Proof.
  unfold strings.isSpace3.
  by_bits b; intros _; simpl; rewrite ?andb_false_r; reflexivity.
Qed.

Lemma space1_not_third (a b c : ascii) :
  strings.isSpace1 c = true -> strings.isSpace3 a b c = false.
Proof.
  unfold strings.isSpace3.
  by_bits c; intros _; simpl; rewrite ?andb_false_r; reflexivity.
Qed.

(** One step of [trimLeft]: it stops, and then white space appended to
    the string stays; or it strips a rune and goes on with the rest. *)
Lemma trimLeft_step (s : string) :
  (strings.trimLeft s = s
   /\ startsWithSpace s = false
   /\ (s <> EmptyString ->
       forall ws, allSpace ws = true -> strings.trimLeft (s ++ ws) = s ++ ws))
  \/ (exists pre r,
        s = pre ++ r /\ (String.length r < String.length s)%nat
        /\ forall t, strings.trimLeft (s ++ t) = strings.trimLeft (r ++ t)).
Proof.
  destruct s as [|a r1]; [left; repeat split; congruence|].
  destruct (strings.isSpace1 a) eqn:Ha.
  { right. exists (String a EmptyString), r1. repeat split; [simpl; lia|].
    intros t. simpl. now rewrite Ha. }
  destruct r1 as [|b r2].
  { left. simpl. rewrite Ha. repeat split. intros _ ws Hws.
    destruct ws as [|x [|y ws]]; try reflexivity;
      simpl in Hws; apply andb_true_iff in Hws as [Hx Hws];
      rewrite (space1_not_second a x Hx); [reflexivity|].
    now rewrite (space1_not_middle a x y Hx). }
  destruct (strings.isSpace2 a b) eqn:Hab.
  { right. exists (String a (String b EmptyString)), r2. repeat split; [simpl; lia|].
    intros t. simpl. now rewrite Ha, Hab. }
  destruct r2 as [|c r3].
  { left. simpl. rewrite Ha, Hab. repeat split. intros _ ws Hws.
    destruct ws as [|x ws]; [reflexivity|].
    simpl in Hws. apply andb_true_iff in Hws as [Hx Hws].
    now rewrite (space1_not_third a b x Hx). }
  destruct (strings.isSpace3 a b c) eqn:Habc.
  { right. exists (String a (String b (String c EmptyString))), r3.
    repeat split; [simpl; lia|]. intros t. simpl. now rewrite Ha, Hab, Habc. }
  left. simpl. rewrite Ha, Hab, Habc. repeat split.
Qed.

Lemma trimLeft_allSpace (ws : string) : allSpace ws = true -> strings.trimLeft ws = EmptyString.
Proof.
  induction ws as [|x ws IH]; [reflexivity|].
  simpl. intros H. apply andb_true_iff in H as [Hx Hws]. rewrite Hx. now apply IH.
Qed.

Lemma trimLeft_space_l (ws s : string) :
  allSpace ws = true -> strings.trimLeft (ws ++ s) = strings.trimLeft s.
Proof.
  induction ws as [|x ws IH]; [reflexivity|].
  simpl. intros H. apply andb_true_iff in H as [Hx Hws]. rewrite Hx. now apply IH.
Qed.

(** What [trimLeft] returns is the end of its argument and does not begin
    with ASCII white space. *)
Lemma trimLeft_spec (s : string) :
  (exists pre, s = pre ++ strings.trimLeft s)
  /\ startsWithSpace (strings.trimLeft s) = false.
Proof.
  induction s as [s IH] using string_length_ind.
  destruct (trimLeft_step s) as [(Heq & Hhead & _)|(pre & r & Hs & Hlen & Hstrip)].
  - rewrite Heq. split; [now exists EmptyString|exact Hhead].
  - specialize (Hstrip EmptyString). rewrite !append_nil_r in Hstrip. rewrite Hstrip.
    destruct (IH r Hlen) as [(pre' & Hr) Hhead]. split; [|exact Hhead].
    exists (pre ++ pre'). rewrite append_assoc, <- Hr. exact Hs.
Qed.

Lemma trimLeft_space_r (s ws : string) :
  allSpace ws = true ->
  strings.trimLeft (s ++ ws)
  = match strings.trimLeft s with
    | EmptyString => EmptyString
    | t => t ++ ws
    end.
Proof.
  intros Hws. induction s as [s IH] using string_length_ind.
  destruct (trimLeft_step s) as [(Heq & _ & Happ)|(pre & r & Hs & Hlen & Hstrip)].
  - rewrite Heq. destruct s as [|a r]; [now apply trimLeft_allSpace|].
    apply Happ; [discriminate|exact Hws].
  - rewrite (Hstrip ws). pose proof (Hstrip EmptyString) as H0.
    rewrite !append_nil_r in H0. rewrite H0. now apply IH.
Qed.

(** The same for the reversed scan. *)
Lemma trimLeftRev_step (s : string) :
  (strings.trimLeftRev s = s /\ startsWithSpace s = false)
  \/ (exists pre r,
        s = pre ++ r /\ (String.length r < String.length s)%nat
        /\ strings.trimLeftRev s = strings.trimLeftRev r).
Proof.
  destruct s as [|c r1]; [left; split; reflexivity|].
  destruct (strings.isSpace1 c) eqn:Hc.
  { right. exists (String c EmptyString), r1. repeat split; [simpl; lia|].
    simpl. now rewrite Hc. }
  destruct r1 as [|b r2]; [left; simpl; now rewrite Hc|].
  destruct (strings.isSpace2 b c) eqn:Hbc.
  { right. exists (String c (String b EmptyString)), r2. repeat split; [simpl; lia|].
    simpl. now rewrite Hc, Hbc. }
  destruct r2 as [|a r3]; [left; simpl; now rewrite Hc, Hbc|].
  destruct (strings.isSpace3 a b c) eqn:Habc.
  { right. exists (String c (String b (String a EmptyString))), r3.
    repeat split; [simpl; lia|]. simpl. now rewrite Hc, Hbc, Habc. }
  left. simpl. now rewrite Hc, Hbc, Habc.
Qed.

Lemma trimLeftRev_spec (s : string) :
  (exists pre, s = pre ++ strings.trimLeftRev s)
  /\ startsWithSpace (strings.trimLeftRev s) = false.
Proof.
  induction s as [s IH] using string_length_ind.
  destruct (trimLeftRev_step s) as [(Heq & Hhead)|(pre & r & Hs & Hlen & Hstrip)].
  - rewrite Heq. split; [now exists EmptyString|exact Hhead].
  - rewrite Hstrip. destruct (IH r Hlen) as [(pre' & Hr) Hhead]. split; [|exact Hhead].
    exists (pre ++ pre'). rewrite append_assoc, <- Hr. exact Hs.
Qed.

Lemma trimLeftRev_space_l (ws s : string) :
  allSpace ws = true -> strings.trimLeftRev (ws ++ s) = strings.trimLeftRev s.
Proof.
  induction ws as [|x ws IH]; [reflexivity|].
  simpl. intros H. apply andb_true_iff in H as [Hx Hws]. rewrite Hx. now apply IH.
Qed.

Lemma trimRight_space_r (s ws : string) :
  allSpace ws = true -> strings.trimRight (s ++ ws) = strings.trimRight s.
Proof.
  intros Hws. unfold strings.trimRight.
  rewrite rev_app, trimLeftRev_space_l; [reflexivity|now rewrite allSpace_rev].
Qed.

(** [TrimSpace] does away with the ASCII white space around a value. *)
Lemma TrimSpace_around (ws1 v ws2 : string) :
  allSpace ws1 = true -> allSpace ws2 = true ->
  strings.TrimSpace (ws1 ++ v ++ ws2) = strings.TrimSpace v.
Proof.
  intros H1 H2. unfold strings.TrimSpace.
  rewrite trimLeft_space_l by exact H1.
  rewrite trimLeft_space_r by exact H2.
  destruct (strings.trimLeft v) as [|a t]; [reflexivity|].
  now apply trimRight_space_r.
Qed.

(** What [TrimSpace] returns neither begins nor ends with ASCII white
    space. *)
Lemma TrimSpace_tidy (v : string) : tidy (strings.TrimSpace v) = true.
Proof.
  unfold tidy, strings.TrimSpace, strings.trimRight.
  destruct (trimLeft_spec v) as [_ Hhead].
  destruct (trimLeftRev_spec (strings.rev (strings.trimLeft v))) as [(pre & Hpre) Hlast].
  rewrite rev_involutive, Hlast, andb_true_r. apply negb_true_iff.
  apply (f_equal strings.rev) in Hpre. rewrite rev_involutive, rev_app in Hpre.
  destruct (strings.rev (strings.trimLeftRev _)) as [|a t]; [reflexivity|].
  rewrite Hpre in Hhead. exact Hhead.
Qed.

Section EnumSpace.

Context {C : Collaborators}.

Lemma matchFound_around (ws1 v ws2 : string) (enum : list string) :
  allSpace ws1 = true -> allSpace ws2 = true ->
  matchFound (ws1 ++ v ++ ws2) enum = matchFound v enum.
Proof.
  intros H1 H2. induction enum as [|e enum IH]; [reflexivity|].
  simpl. now rewrite (TrimSpace_around ws1 v ws2 H1 H2), IH.
Qed.

Lemma app_one_neq {T : Type} (l : list T) (x : T) : (l ++ [x])%list <> l.
Proof.
  intros H. apply (f_equal (@length T)) in H. rewrite length_app in H. simpl in H. lia.
Qed.

(** X8.  The enum check, unlike the other scalar checks, looks past the
    ASCII white space around a value: tabs, line feeds and spaces put
    before or after a value change neither which entry it matches nor
    whether the check passes. *)
Theorem enum_check_trims (p : v3.Parameter_) (s : base.Schema)
  (cookie cookie' : http.Cookie) (acc : list ValidationError) (ws1 ws2 : string) :
  allSpace ws1 = true -> allSpace ws2 = true ->
  http.Value cookie' = ws1 ++ http.Value cookie ++ ws2 ->
  (forall enum, matchFound (http.Value cookie') enum = matchFound (http.Value cookie) enum)
  /\ (typeCase p (Some s) cookie' acc helpers.String = Returned acc
      <-> typeCase p (Some s) cookie acc helpers.String = Returned acc).
Proof.
  intros H1 H2 Hv.
  assert (Hm : forall enum,
            matchFound (http.Value cookie') enum = matchFound (http.Value cookie) enum)
    by (intros enum; rewrite Hv; now apply matchFound_around).
  split; [exact Hm|].
  rewrite !typeCase_string. destruct (base.Enum s) as [enum|]; [|tauto].
  rewrite Hm. destruct (matchFound (http.Value cookie) enum); [tauto|].
  split; intros [= H]; now apply app_one_neq in H.
Qed.

Lemma matchFound_tidy (v : string) (enum : list string) :
  matchFound v enum = matchFound v (filter tidy enum).
Proof.
  induction enum as [|e enum IH]; [reflexivity|].
  simpl. destruct (String.eqb_spec (strings.TrimSpace v) e) as [<-|Hne].
  - rewrite TrimSpace_tidy. simpl. now rewrite String.eqb_refl.
  - destruct (tidy e); [|exact IH]. simpl.
    destruct (String.eqb_spec (strings.TrimSpace v) e); [contradiction|exact IH].
Qed.

(** X9.  The value is trimmed, the entries of the enum are not: an entry
    that begins or ends with ASCII white space matches no value, so the
    check is the one of the enum without such entries, and an enum that has
    only such entries (or none at all) rejects every value. *)
Theorem enum_entries_are_not_trimmed (p : v3.Parameter_) (s : base.Schema)
  (cookie : http.Cookie) (acc : list ValidationError) (enum : list string) :
  matchFound (http.Value cookie) enum = matchFound (http.Value cookie) (filter tidy enum)
  /\ (base.Enum s = Some enum ->
      (forall e, List.In e enum -> tidy e = false) ->
      typeCase p (Some s) cookie acc helpers.String
      = Returned
          (acc ++ [IncorrectCookieParamEnum p (ToLower (http.Value cookie)) (Some s)])%list).
Proof.
  split; [apply matchFound_tidy|].
  intros Henum Hall. rewrite typeCase_string, Henum, matchFound_tidy.
  replace (filter tidy enum) with (@nil string); [reflexivity|].
  symmetry. clear Henum. induction enum as [|e enum IH]; [reflexivity|].
  simpl. rewrite (Hall e (or_introl eq_refl)). apply IH. intros; apply Hall. now right.
Qed.

End EnumSpace.

(** ** Signs *)

Section Signs.

Context {C : Collaborators}.

(** X10.  The integer and number checks read a sign and judge the
    magnitude only: a value of digits, with an optional fraction and an
    optional exponent, passes with a leading "+", with a leading "-" and
    with no sign alike. *)
Theorem numeric_check_ignores_sign (p : v3.Parameter_) (sch : ptr base.Schema)
  (cookie cookie' : http.Cookie) (acc : list ValidationError) (ty : string)
  (sign sign' int frac exp : string) :
  ty = helpers.Integer \/ ty = helpers.Number ->
  sign = EmptyString \/ sign = "-" \/ sign = "+" ->
  sign' = EmptyString \/ sign' = "-" \/ sign' = "+" ->
  digits int -> fraction frac -> exponent exp ->
  http.Value cookie = sign ++ int ++ frac ++ exp ->
  http.Value cookie' = sign' ++ int ++ frac ++ exp ->
  (typeCase p sch cookie acc ty = Returned acc
   <-> typeCase p sch cookie' acc ty = Returned acc).
Proof.
  intros Hty Hs Hs' Hint Hfrac Hexp Hv Hv'.
  destruct (set_literal int frac exp Hint Hfrac Hexp) as (b & Hset & _).
  pose proof (Hset EmptyString (or_introl eq_refl)) as Hb.
  change (EmptyString ++ int ++ frac ++ exp) with (int ++ frac ++ exp) in Hb.
  rewrite !(typeCase_numeric _ _ _ _ _ Hty), Hv, Hv'.
  rewrite (ParseFloat_signed_literal sign int frac exp b Hs Hint Hfrac Hexp Hb).
  rewrite (ParseFloat_signed_literal sign' int frac exp b Hs' Hint Hfrac Hexp Hb).
  destruct (strconv.overflows 64 b); [|tauto].
  split; intros [= H]; apply (f_equal (@length _)) in H;
    rewrite length_app in H; simpl in H; lia.
Qed.

End Signs.

(** ** Collections *)
Section Collections.

Context {C : Collaborators}.

Lemma joinAll_nothing {T : Type} (l : list (outcome (list T))) :
  (forall m, List.In m l -> m = Returned []) -> joinAll l = Returned [].
Proof.
  induction l as [|m l IH]; simpl; intros H; [reflexivity|].
  rewrite (H m (or_introl eq_refl)); simpl.
  rewrite IH; [reflexivity|]. intros; apply H; now right.
Qed.

(** X11.  Exploded objects and arrays are not looked at: when every
    cookie parameter of the resolved operation is exploded and declares
    object and array tags only, the call passes whatever cookies the
    request carries. *)
Theorem exploded_collections_pass (v : paramValidator) (request : http.Request)
  (pathItem : PathItem) :
  FindPath request (document v) = (Some pathItem, None) ->
  (forall p,
     List.In p (ExtractParamsForOperation request pathItem) ->
     v3.In p = helpers.Cookie ->
     v3.IsExploded p = true
     /\ exists s,
          paramSchema p = Some s
          /\ forall ty, List.In ty (base.Type_ s) ->
                        ty = helpers.Object \/ ty = helpers.Array) ->
  snd (ValidateCookieParams v request) = Returned (true, None).
Proof.
  intros Hpath Hall. rewrite ValidateCookieParams_checks, Hpath.
  rewrite joinAll_nothing; [reflexivity|].
  intros m Hm. apply checks_In_iff in Hm as (p & c & Hp & Hin & _ & _ & ->).
  destruct (Hall p Hp Hin) as (Hexp & s & Hsch & Htags).
  unfold cookieErrors, tagChecks. rewrite Hsch.
  apply joinAll_nothing. intros m Hm.
  apply in_map_iff in Hm as (ty & <- & Hty).
  unfold tagErrors. destruct (Htags ty Hty) as [->| ->].
  - now rewrite typeCase_object, Hexp.
  - now rewrite typeCase_array, Hexp.
Qed.

(** X12.  For a parameter that is not exploded, each object tag hands
    the pairs decoded from the cookie's value to the schema validator,
    with the parameter's own schema and name, and takes over all the
    violations it returns, in its order. *)
Theorem object_check_forwards (p : v3.Parameter_) (s : base.Schema) (cookie : http.Cookie) :
  paramSchema p = Some s ->
  v3.IsExploded p = false ->
  (forall ty, List.In ty (base.Type_ s) -> ty = helpers.Object) ->
  cookieErrors p cookie
  = Returned
      (concat
         (repeat
            (ValidateParameterSchema (Some s) (ConstructMapFromCSV (http.Value cookie))
               EmptyString "Cookie parameter" "The cookie parameter" (v3.Name p)
               ParameterValidation ParameterValidationQuery)
            (length (base.Type_ s)))).
Proof.
  intros Hsch Hexp Htags. unfold cookieErrors, tagChecks. rewrite Hsch.
  induction (base.Type_ s) as [|ty types IH]; [reflexivity|].
  simpl. rewrite IH by (intros; apply Htags; now right).
  rewrite (Htags ty (or_introl eq_refl)). unfold tagErrors.
  now rewrite typeCase_object, Hexp.
Qed.

(** X13.  A cookie checked against a schema whose tags are integer,
    number, boolean, string or unknown to the switch never panics and
    yields at most one violation per declared tag. *)
Theorem scalar_cookie_bound (p : v3.Parameter_) (s : base.Schema) (cookie : http.Cookie) :
  paramSchema p = Some s ->
  (forall ty, List.In ty (base.Type_ s) -> scalarTag ty = true \/ knownTag ty = false) ->
  exists errs,
    cookieErrors p cookie = Returned errs
    /\ (length errs <= length (base.Type_ s))%nat.
Proof.
  intros Hsch Htags. unfold cookieErrors, tagChecks. rewrite Hsch.
  induction (base.Type_ s) as [|ty types IH]; [now exists []|].
  destruct IH as (errs & Hjoin & Hlen); [intros; apply Htags; now right|].
  simpl. rewrite Hjoin.
  assert (Hone : tagErrors p (Some s) cookie ty = Returned []
                 \/ exists e, tagErrors p (Some s) cookie ty = Returned [e]).
  { destruct (Htags ty (or_introl eq_refl)) as [Hty|Hty].
    - now apply scalar_check_at_most_one.
    - left. unfold tagErrors. now apply typeCase_unknown. }
  destruct Hone as [->|(e & ->)]; simpl; eexists; split; try reflexivity; simpl; lia.
Qed.

End Collections.

(** ** Infinities and not-a-number *)

Lemma commonPrefix_full (s prefix : string) :
  strings.mapBytes strings.lowerByte s = prefix ->
  strconv.commonPrefixLenIgnoreCase s prefix = String.length s.
Proof.
  revert prefix. induction s as [|c s IH]; intros prefix <-; [reflexivity|].
  simpl. rewrite Ascii.eqb_refl. f_equal. now apply IH.
Qed.

Lemma mapBytes_length (f : ascii -> ascii) (s : string) :
  String.length (strings.mapBytes f s) = String.length s.
Proof. induction s as [|c s IH]; simpl; [reflexivity|now rewrite IH]. Qed.

Lemma infinityLen_full (s : string) :
  strings.mapBytes strings.lowerByte s = "inf"
  \/ strings.mapBytes strings.lowerByte s = "infinity" ->
  strconv.infinityLen s = Some (String.length s).
Proof.
  intros H. unfold strconv.infinityLen.
  assert (Hlen : String.length s = 3%nat \/ String.length s = 8%nat)
    by (rewrite <- (mapBytes_length strings.lowerByte s); destruct H as [->| ->]; auto).
  destruct H as [H|H].
  - destruct s as [|a [|b [|c [|d s]]]]; try discriminate.
    injection H as Ha Hb Hc. simpl. now rewrite Ha, Hb, Hc.
  - rewrite (commonPrefix_full s "infinity" H).
    destruct Hlen as [->| ->]; reflexivity.
Qed.

Lemma lower_first_i (c : ascii) :
  strings.lowerByte c = "i"%char ->
  (Ascii.eqb c "+" || Ascii.eqb c "-") = false
  /\ (Ascii.eqb c "i" || Ascii.eqb c "I") = true.
Proof. by_bits c; intros _; split; reflexivity. Qed.

Lemma lower_first_n (c : ascii) :
  strings.lowerByte c = "n"%char ->
  (Ascii.eqb c "+" || Ascii.eqb c "-") = false
  /\ (Ascii.eqb c "i" || Ascii.eqb c "I") = false
  /\ (Ascii.eqb c "n" || Ascii.eqb c "N") = true.
Proof. by_bits c; intros _; repeat split; reflexivity. Qed.

Lemma lower_sign (c : ascii) (d : ascii) :
  d = "+"%char \/ d = "-"%char ->
  strings.lowerByte c = d -> (Ascii.eqb c "+" || Ascii.eqb c "-") = true.
Proof. intros [->| ->]; by_bits c. Qed.

(** The values [special] reads to their end. *)
Lemma special_full (s : string) :
  List.In (strings.mapBytes strings.lowerByte s)
    ["inf"; "+inf"; "-inf"; "infinity"; "+infinity"; "-infinity"; "nan"] ->
  strconv.special s = Some (String.length s).
Proof.
  intros H. destruct s as [|c r]; [simpl in H; intuition discriminate|].
  simpl in H. unfold strconv.special.
  assert (Hi : forall t, String (strings.lowerByte c) (strings.mapBytes strings.lowerByte r)
                         = String "i" t ->
                 t = "nf" \/ t = "nfinity" ->
                 (if Ascii.eqb c "+" || Ascii.eqb c "-"
                  then match strconv.infinityLen r with
                       | Some n => Some (S n)
                       | None => None
                       end
                  else if Ascii.eqb c "i" || Ascii.eqb c "I"
                       then strconv.infinityLen (String c r)
                       else if Ascii.eqb c "n" || Ascii.eqb c "N"
                            then if (strconv.commonPrefixLenIgnoreCase (String c r) "nan" =? 3)%nat
                                 then Some 3%nat else None
                            else None)
                 = Some (String.length (String c r))).
  { intros t [= Hc Hr] Ht. destruct (lower_first_i c Hc) as [-> ->].
    apply infinityLen_full. simpl. rewrite Hc, Hr. destruct Ht as [->| ->]; auto. }
  assert (Hs : forall d t, d = "+"%char \/ d = "-"%char ->
                 String (strings.lowerByte c) (strings.mapBytes strings.lowerByte r)
                 = String d t ->
                 t = "inf" \/ t = "infinity" ->
                 (if Ascii.eqb c "+" || Ascii.eqb c "-"
                  then match strconv.infinityLen r with
                       | Some n => Some (S n)
                       | None => None
                       end
                  else if Ascii.eqb c "i" || Ascii.eqb c "I"
                       then strconv.infinityLen (String c r)
                       else if Ascii.eqb c "n" || Ascii.eqb c "N"
                            then if (strconv.commonPrefixLenIgnoreCase (String c r) "nan" =? 3)%nat
                                 then Some 3%nat else None
                            else None)
                 = Some (String.length (String c r))).
  { intros d t Hd [= Hc Hr] Ht. rewrite (lower_sign c d Hd Hc).
    rewrite infinityLen_full; [reflexivity|]. rewrite Hr. exact Ht. }
  destruct H as [H|[H|[H|[H|[H|[H|[H|[]]]]]]]]; symmetry in H.
  - apply (Hi "nf" H); auto.
  - apply (Hs "+"%char "inf" (or_introl eq_refl) H); auto.
  - apply (Hs "-"%char "inf" (or_intror eq_refl) H); auto.
  - apply (Hi "nfinity" H); auto.
  - apply (Hs "+"%char "infinity" (or_introl eq_refl) H); auto.
  - apply (Hs "-"%char "infinity" (or_intror eq_refl) H); auto.
  - injection H as Hc Hr. destruct (lower_first_n c Hc) as (-> & -> & ->).
    assert (Hfull := commonPrefix_full (String c r) "nan").
    simpl strings.mapBytes in Hfull. rewrite Hc, Hr in Hfull. specialize (Hfull eq_refl).
    assert (Hlen : String.length (String c r) = 3%nat).
    { rewrite <- (mapBytes_length strings.lowerByte (String c r)).
      simpl strings.mapBytes. now rewrite Hc, Hr. }
    rewrite Hfull, Hlen. reflexivity.
Qed.

Section Specials.

Context {C : Collaborators}.

(** X14.  The integer and number checks accept the infinities and
    not-a-number: a value that reads "inf" or "infinity" (with or without a
    sign) or "nan" once its letters are lower-cased gets no violation. *)
Theorem infinities_pass (p : v3.Parameter_) (sch : ptr base.Schema) (cookie : http.Cookie)
  (acc : list ValidationError) (ty : string) :
  ty = helpers.Integer \/ ty = helpers.Number ->
  List.In (strings.mapBytes strings.lowerByte (http.Value cookie))
    ["inf"; "+inf"; "-inf"; "infinity"; "+infinity"; "-infinity"; "nan"] ->
  typeCase p sch cookie acc ty = Returned acc.
Proof.
  intros Hty Hv. rewrite (typeCase_numeric _ _ _ _ _ Hty).
  unfold strconv.ParseFloat. rewrite (special_full _ Hv), Nat.eqb_refl. reflexivity.
Qed.

End Specials.

(** ** The properties above, on the model *)

Lemma verdict_ignores_order_witness :
  let n := SpecModel.cookieParam "n" (SpecModel.schemaOf [helpers.Integer]) in
  let a := SpecModel.cookie "n" "1" in
  let b := SpecModel.cookie "n" "x" in
  verdict (C := SpecModel.demo) (forEach [n] [] (paramCase (SpecModel.get [a; b])))
  = verdict (C := SpecModel.demo) (forEach [n; n] [] (paramCase (SpecModel.get [b; a; b]))).
Proof.
  intros n a b.
  apply (verdict_ignores_order (C := SpecModel.demo)
           (SpecModel.get [a; b]) (SpecModel.get [b; a; b]) [n] [n; n]);
    intros x; simpl; tauto.
Defined.

Lemma numeric_tags_repeat_witness :
  let n := SpecModel.cookieParam "n"
             (SpecModel.schemaOf [helpers.Integer; helpers.Number]) in
  let violation :=
    SpecModel.ParamViolation n "abc" SpecModel.NotNumber (paramSchema n) in
  cookieErrors (C := SpecModel.demo) n (SpecModel.cookie "n" "ABC")
  = Returned [violation; violation].
Proof.
  intros n violation.
  apply (numeric_tags_repeat (C := SpecModel.demo) n
           (SpecModel.schemaOf [helpers.Integer; helpers.Number])
           (SpecModel.cookie "n" "ABC") eq_refl).
  intros ty [<-|[<-|[]]]; auto.
Defined.

Lemma scalar_checks_reject_white_space_witness :
  noSpace "1 " = false
  /\ typeCase (C := SpecModel.demo)
       (SpecModel.cookieParam "flag" (SpecModel.schemaOf [helpers.Boolean]))
       (Some (SpecModel.schemaOf [helpers.Boolean]))
       (SpecModel.cookie "flag" "1 ") [] helpers.Boolean
     = Returned
         [SpecModel.ParamViolation
            (SpecModel.cookieParam "flag" (SpecModel.schemaOf [helpers.Boolean]))
            "1 " SpecModel.NotBoolean (Some (SpecModel.schemaOf [helpers.Boolean]))].
Proof.
  split; [reflexivity|].
  apply (proj2 (scalar_checks_reject_white_space (C := SpecModel.demo)
                  (SpecModel.cookieParam "flag" (SpecModel.schemaOf [helpers.Boolean]))
                  (Some (SpecModel.schemaOf [helpers.Boolean]))
                  (SpecModel.cookie "flag" "1 ") [] (or_introl eq_refl))).
Defined.

Lemma enum_check_trims_witness :
  let colours := SpecModel.enumOf ["red"; "green"; "blue"] in
  let colour := SpecModel.cookieParam "colour" colours in
  typeCase (C := SpecModel.demo) colour (Some colours)
    (SpecModel.cookie "colour" "  green ") [] helpers.String = Returned []
  <-> typeCase (C := SpecModel.demo) colour (Some colours)
        (SpecModel.cookie "colour" "green") [] helpers.String = Returned [].
Proof.
  intros colours colour.
  apply (proj2 (enum_check_trims (C := SpecModel.demo) colour colours
                  (SpecModel.cookie "colour" "green") (SpecModel.cookie "colour" "  green ")
                  [] "  " " " eq_refl eq_refl eq_refl)).
Defined.

Lemma numeric_check_ignores_sign_witness :
  let n := SpecModel.cookieParam "n" (SpecModel.schemaOf [helpers.Integer]) in
  typeCase (C := SpecModel.demo) n (paramSchema n)
    (SpecModel.cookie "n" "+7.5") [] helpers.Integer = Returned []
  <-> typeCase (C := SpecModel.demo) n (paramSchema n)
        (SpecModel.cookie "n" "-7.5") [] helpers.Integer = Returned [].
Proof.
  intros n.
  apply (numeric_check_ignores_sign (C := SpecModel.demo) n (paramSchema n)
           (SpecModel.cookie "n" "+7.5") (SpecModel.cookie "n" "-7.5") []
           helpers.Integer "+" "-" "7" ".5" EmptyString).
  - now left.
  - auto.
  - auto.
  - split; [discriminate|reflexivity].
  - right. exists "5". repeat split. discriminate.
  - now left.
  - reflexivity.
  - reflexivity.
Defined.

Lemma exploded_collections_pass_witness :
  let basket :=
    v3.mkParameter "basket" helpers.Cookie
      (Some (base.mkSchemaProxy
               (Some (SpecModel.schemaOf [helpers.Object; helpers.Array])))) true in
  snd (ValidateCookieParams (SpecModel.validator [basket])
         (SpecModel.get [SpecModel.cookie "basket" "a,b,c"; SpecModel.cookie "basket" EmptyString]))
  = Returned (true, None).
Proof.
  intros basket.
  apply (exploded_collections_pass (C := SpecModel.demo) (SpecModel.validator [basket])
           (SpecModel.get [SpecModel.cookie "basket" "a,b,c";
                           SpecModel.cookie "basket" EmptyString])
           [basket] eq_refl).
  intros p [<-|[]] _. split; [reflexivity|].
  exists (SpecModel.schemaOf [helpers.Object; helpers.Array]). split; [reflexivity|].
  intros ty [<-|[<-|[]]]; auto.
Defined.

Lemma object_check_forwards_witness :
  let role := SpecModel.cookieParam "role" (SpecModel.schemaOf [helpers.Object]) in
  cookieErrors (C := SpecModel.collaborators SpecModel.resolveAll
                       (fun sch pairs =>
                          map (fun kv => SpecModel.ParamViolation role (fst kv)
                                           SpecModel.ObjectSchemaMismatch sch) pairs))
    role (SpecModel.cookie "role" "role,admin,level,3")
  = Returned
      [SpecModel.ParamViolation role "role" SpecModel.ObjectSchemaMismatch (paramSchema role);
       SpecModel.ParamViolation role "level" SpecModel.ObjectSchemaMismatch (paramSchema role)].
Proof.
  intros role.
  apply (object_check_forwards
           (C := SpecModel.collaborators SpecModel.resolveAll
                   (fun sch pairs =>
                      map (fun kv => SpecModel.ParamViolation role (fst kv)
                                       SpecModel.ObjectSchemaMismatch sch) pairs))
           role (SpecModel.schemaOf [helpers.Object])
           (SpecModel.cookie "role" "role,admin,level,3") eq_refl eq_refl).
  intros ty [<-|[]]. reflexivity.
Defined.

Lemma scalar_cookie_bound_witness :
  let n := SpecModel.cookieParam "n"
             (SpecModel.schemaOf [helpers.Integer; "null"; helpers.Boolean]) in
  exists errs,
    cookieErrors (C := SpecModel.demo) n (SpecModel.cookie "n" "abc") = Returned errs
    /\ (length errs <= 3)%nat.
Proof.
  intros n.
  apply (scalar_cookie_bound (C := SpecModel.demo) n
           (SpecModel.schemaOf [helpers.Integer; "null"; helpers.Boolean])
           (SpecModel.cookie "n" "abc") eq_refl).
  intros ty [<-|[<-|[<-|[]]]]; auto.
Defined.

Lemma infinities_pass_witness :
  typeCase (C := SpecModel.demo)
    (SpecModel.cookieParam "n" (SpecModel.schemaOf [helpers.Integer]))
    (Some (SpecModel.schemaOf [helpers.Integer]))
    (SpecModel.cookie "n" "-InFinity") [] helpers.Integer
  = Returned [].
Proof.
  apply (infinities_pass (C := SpecModel.demo)
           (SpecModel.cookieParam "n" (SpecModel.schemaOf [helpers.Integer]))
           (Some (SpecModel.schemaOf [helpers.Integer]))
           (SpecModel.cookie "n" "-InFinity") [] helpers.Integer (or_introl eq_refl)).
  simpl. tauto.
Defined.
